(** * Sentence aggregation of the audio-to-text tool

    A shallow embedding of the sentence-grouping loop, of the construction
    of the request parameter bag and of the error boundary of the
    [audio-to-text] handler in [src/tools/audio-to-text.ts].

    Conventions.
    - A JavaScript string is the list of its UTF-16 code units.
    - A JavaScript number is an IEEE 754 binary64 value, which is what
      Rocq's primitive [float] is.
    - An array is a list; [arr[i]] is the list lookup [arr !! i], and
      reading a property of the [undefined] that an out-of-range index
      yields is the [TypeError] that JavaScript raises. *)

From Stdlib Require Import PrimFloat.
From stdpp Require Import base option list strings gmap.

(** ** Strings *)

Module JsString.

Abbreviation t := (list N).

(** An ASCII literal of the source as a sequence of code units. *)
Fixpoint lit (s : string) : t :=
  match s with
  | EmptyString => []
  | String a r => Ascii.N_of_ascii a :: lit r
  end.

(** [WhiteSpace] and [LineTerminator] of ECMAScript: the code units that
    [String.prototype.trim] strips and that [\s] matches. *)
Definition is_space (c : N) : bool :=
  ((9 <=? c) && (c <=? 13)           (* TAB, LF, VT, FF, CR *)
   || (c =? 32)                      (* SPACE *)
   || (c =? 160)                     (* NO-BREAK SPACE *)
   || (c =? 5760)                    (* U+1680 *)
   || ((8192 <=? c) && (c <=? 8202)) (* U+2000 .. U+200A *)
   || (c =? 8232) || (c =? 8233)     (* U+2028, U+2029 *)
   || (c =? 8239)                    (* U+202F *)
   || (c =? 8287)                    (* U+205F *)
   || (c =? 12288)                   (* U+3000 *)
   || (c =? 65279))%N.               (* U+FEFF *)

Fixpoint trimStart (s : t) : t :=
  match s with
  | c :: r => if is_space c then trimStart r else s
  | [] => []
  end.

Definition trimEnd (s : t) : t := rev (trimStart (rev s)).

(** [s.trim()] *)
Definition trim (s : t) : t := trimEnd (trimStart s).

End JsString.

Abbreviation jsstring := JsString.t.

(** ** The pattern [/[.!?][\s]*$/] *)

Module Pattern.

(** The character class [[.!?]]. *)
Definition is_terminal (c : N) : bool :=
  ((c =? 46) || (c =? 33) || (c =? 63))%N.

(** A match of [[.!?][\s]*$] that starts at the head of [s]: one
    character of the class, then white space only, up to the end of the
    input (there is no [m] flag, so [$] is the end of the input). *)
Definition match_here (s : jsstring) : bool :=
  match s with
  | c :: r => is_terminal c && forallb JsString.is_space r
  | [] => false
  end.

(** [/[.!?][\s]*$/.test(s)]: the pattern is not anchored on the left, so
    the search tries every start position from left to right. *)
Fixpoint test (s : jsstring) : bool :=
  match_here s ||
  match s with
  | _ :: r => test r
  | [] => false
  end.

End Pattern.

(** ** Segments and sentences *)

Record Segment := mkSegment {
  seg_start : float;
  seg_end : float;
  seg_text : jsstring }.

Record Sentence := mkSentence {
  sentence : jsstring;
  start_time : float;
  end_time : float;
  duration : float }.

(** ** Effects of the grouping code

    The grouping code reads the array [output.segments] by index.  A
    computation takes the log of the indices read so far and either fails
    (the [TypeError] of a property read on [undefined]) or returns a value
    and the extended log. *)

Module Eff.

Definition t (A : Type) : Type := list nat → option (A * list nat).

Definition ret {A} (a : A) : t A := λ log, Some (a, log).

Definition bind {A B} (m : t A) (k : A → t B) : t B :=
  λ log, match m log with
         | Some (a, log') => k a log'
         | None => None
         end.

(** [arr[i]] followed by a property read. *)
Definition read {A} (arr : list A) (i : nat) : t A :=
  λ log, match arr !! i with
         | Some a => Some (a, log ++ [i])
         | None => None
         end.

(** [for (let i = ...; ...; i++) body], over the indices [idx]. *)
Fixpoint for_each {S} (idx : list nat) (body : nat → S → t S) (s : S) : t S :=
  match idx with
  | [] => ret s
  | i :: idx' => bind (body i s) (for_each idx' body)
  end.

(** Running a computation from the empty log. *)
Definition run {A} (m : t A) : option (A * list nat) := m [].
Definition value {A} (m : t A) : option A := fst <$> run m.
Definition reads {A} (m : t A) : option (list nat) := snd <$> run m.

End Eff.

#[global] Instance eff_ret : MRet Eff.t := @Eff.ret.
#[global] Instance eff_bind : MBind Eff.t := λ A B k m, Eff.bind m k.

(** ** The grouping loop (audio-to-text.ts, lines 259-288) *)

Record LoopState := mkLoop {
  currentSentence : jsstring;
  sentenceStart : float;
  sentenceTimestamps : list Sentence }.

Definition loop_body (segments : list Segment) (i : nat) (st : LoopState)
  : Eff.t LoopState :=
  segment ← Eff.read segments i;
  let currentSentence' := currentSentence st ++ seg_text segment in
  let endsWithPunctuation := Pattern.test (JsString.trim (seg_text segment)) in
  let isLastSegment := (Z.of_nat i =? Z.of_nat (length segments) - 1)%Z in
  if endsWithPunctuation || isLastSegment then
    let pushed :=
      sentenceTimestamps st ++
        [ {| sentence := JsString.trim currentSentence';
             start_time := sentenceStart st;
             end_time := seg_end segment;
             duration := PrimFloat.sub (seg_end segment) (sentenceStart st) |} ] in
    if (Z.of_nat i <? Z.of_nat (length segments) - 1)%Z then
      next ← Eff.read segments (i + 1);
      mret {| currentSentence := [];
                 sentenceStart := seg_start next;
                 sentenceTimestamps := pushed |}
    else
      mret {| currentSentence := currentSentence';
                 sentenceStart := sentenceStart st;
                 sentenceTimestamps := pushed |}
  else
    mret {| currentSentence := currentSentence';
               sentenceStart := sentenceStart st;
               sentenceTimestamps := sentenceTimestamps st |}.

(** [output.segments] may be absent ([segments?: Array<...>]). *)
Definition aggregate (segments : option (list Segment)) : Eff.t (list Sentence) :=
  match segments with
  | Some segs =>
      if (0 <? length segs)%nat then
        first ← Eff.read segs 0;
        st ← Eff.for_each (seq 0 (length segs)) (loop_body segs)
               {| currentSentence := [];
                  sentenceStart := seg_start first;
                  sentenceTimestamps := [] |};
        mret (sentenceTimestamps st)
      else mret []
  | None => mret []
  end.

(** ** The loop as a fold

    Auxiliary definitions for the proofs: the state of the loop carried
    along the list of the segments still to read. *)

(** No segment remains after the current one ([isLastSegment]). *)
Definition is_last (rest : list Segment) : bool :=
  match rest with [] => true | _ :: _ => false end.

(** [endsWithPunctuation] for the segment [s]. *)
Definition closes (s : Segment) : bool :=
  Pattern.test (JsString.trim (seg_text s)).

(** The sentences pushed while reading [segs], from the accumulator [acc]
    and the sentence start [start]. *)
Fixpoint group (acc : jsstring) (start : float) (segs : list Segment)
  : list Sentence :=
  match segs with
  | [] => []
  | s :: rest =>
      let acc' := acc ++ seg_text s in
      if closes s || is_last rest then
        {| sentence := JsString.trim acc';
           start_time := start;
           end_time := seg_end s;
           duration := PrimFloat.sub (seg_end s) start |}
        :: match rest with
           | [] => []
           | next :: _ => group [] (seg_start next) rest
           end
      else group acc' start rest
  end.

(** One iteration at index [i], where [s] is [segments[i]] and [rest] are
    the segments after it. *)
Definition after_iteration (s : Segment) (rest : list Segment) (st : LoopState)
  : LoopState :=
  let acc' := currentSentence st ++ seg_text s in
  if closes s || is_last rest then
    let pushed :=
      sentenceTimestamps st ++
        [ {| sentence := JsString.trim acc';
             start_time := sentenceStart st;
             end_time := seg_end s;
             duration := PrimFloat.sub (seg_end s) (sentenceStart st) |} ] in
    match rest with
    | next :: _ => mkLoop [] (seg_start next) pushed
    | [] => mkLoop acc' (sentenceStart st) pushed
    end
  else mkLoop acc' (sentenceStart st) (sentenceTimestamps st).

(** The sentences pushed for the whole input. *)
Definition grouped (segs : list Segment) : list Sentence :=
  match segs with
  | [] => []
  | first :: _ => group [] (seg_start first) segs
  end.

(** ** Runs of segments: the spec's view of the grouping *)

(** The spec's test on a segment text: its trimmed text ends with one of
    the marks [.], [!], [?], optionally followed by white space. *)
Definition ends_with_terminal_mark (text : jsstring) : Prop :=
  ∃ pre c ws,
    JsString.trim text = pre ++ c :: ws
    ∧ c ∈ JsString.lit ".!?"
    ∧ Forall (λ w, JsString.is_space w = true) ws.

(** A non-empty contiguous run of segments: those before its final
    segment, and its final segment. *)
Record Run := mkRun {
  run_init : list Segment;
  run_final : Segment }.

Definition run_segments (r : Run) : list Segment := run_init r ++ [run_final r].

Definition run_first (r : Run) : Segment := hd (run_final r) (run_init r).

Definition run_text (r : Run) : jsstring := concat (map seg_text (run_segments r)).

(** The sentence the spec emits for a run. *)
Definition run_sentence (r : Run) : Sentence :=
  {| sentence := JsString.trim (run_text r);
     start_time := seg_start (run_first r);
     end_time := seg_end (run_final r);
     duration := PrimFloat.sub (seg_end (run_final r)) (seg_start (run_first r)) |}.

(** [SentenceRuns segs rs]: [rs] cuts [segs] exactly after the segments
    whose text passes the spec's test, and after the final segment. *)
Inductive SentenceRuns : list Segment → list Run → Prop :=
| runs_nil : SentenceRuns [] []
| runs_final init s :
    Forall (λ x, ¬ ends_with_terminal_mark (seg_text x)) init →
    SentenceRuns (init ++ [s]) [mkRun init s]
| runs_cut init s next rest rs :
    Forall (λ x, ¬ ends_with_terminal_mark (seg_text x)) init →
    ends_with_terminal_mark (seg_text s) →
    SentenceRuns (next :: rest) rs →
    SentenceRuns (init ++ s :: next :: rest) (mkRun init s :: rs).

(** The runs, computed: [cur] are the segments of the run being built. *)
Fixpoint split_runs (cur : list Segment) (segs : list Segment) : list Run :=
  match segs with
  | [] => []
  | s :: rest =>
      if closes s || is_last rest then mkRun cur s :: split_runs [] rest
      else split_runs (cur ++ [s]) rest
  end.

(** A segment with an ASCII text. *)
Definition seg (a b : float) (s : string) : Segment :=
  mkSegment a b (JsString.lit s).

(** Equality of texts up to white space: all white space removed. *)
Definition remove_space (s : jsstring) : jsstring :=
  filter (λ c, JsString.is_space c = false) s.

(** A text of white space only. *)
Definition all_space (s : jsstring) : Prop :=
  Forall (λ c, JsString.is_space c = true) s.

(** ** Trailing blank segments *)

(** A segment whose text trims to the empty string. *)
Definition blank (t : Segment) : Prop := JsString.trim (seg_text t) = [].

(** * The handler *)

(** ** Values and arguments *)

Inductive JsValue :=
| JsUndefined
| JsString (s : jsstring)
| JsNumber (x : float)
| JsBoolean (b : bool).

(** [ToBoolean]: [undefined], the empty string, [0], [-0] and [NaN] are falsy. *)
Definition truthy (v : JsValue) : bool :=
  match v with
  | JsUndefined => false
  | JsString s => match s with [] => false | _ :: _ => true end
  | JsNumber x => negb (PrimFloat.eqb x 0) && negb (PrimFloat.is_nan x)
  | JsBoolean b => b
  end.

(** [v !== undefined] *)
Definition defined (v : JsValue) : bool :=
  match v with JsUndefined => false | _ => true end.

(** A destructuring default [x = d]: [d] replaces [undefined] only. *)
Definition or_default (v d : JsValue) : JsValue :=
  if defined v then v else d.

Definition of_string (o : option jsstring) : JsValue :=
  match o with Some s => JsString s | None => JsUndefined end.
Definition of_number (o : option float) : JsValue :=
  match o with Some x => JsNumber x | None => JsUndefined end.
Definition of_boolean (o : option bool) : JsValue :=
  match o with Some b => JsBoolean b | None => JsUndefined end.

(** The arguments of a call, as the schema types them; [None] is an
    optional argument that the caller left out. *)
Record Args := mkArgs {
  audio_file : jsstring;
  language : option jsstring;
  language_detection_min_prob : option float;
  language_detection_max_tries : option float;
  initial_prompt : option jsstring;
  batch_size : option float;
  temperature : option float;
  vad_onset : option float;
  vad_offset : option float;
  align_output : option bool;
  diarization : option bool;
  huggingface_access_token : option jsstring;
  min_speakers : option float;
  max_speakers : option float;
  debug : option bool;
  filename : option jsstring }.

(** The optional parameters that may go into the bag. *)
Definition optional_keys : list string :=
  [ "language"; "initial_prompt"; "language_detection_min_prob";
    "language_detection_max_tries"; "temperature"; "batch_size"; "vad_onset";
    "vad_offset"; "align_output"; "diarization"; "debug";
    "huggingface_access_token"; "min_speakers"; "max_speakers" ]%string.

Set Warnings "-inexact-float".

(** The value of the handler's variable for a parameter, after the
    defaults of its parameter list (lines 92-109). *)
Definition local (a : Args) (k : string) : JsValue :=
  if decide (k = "language") then
    or_default (of_string (language a)) (JsString (JsString.lit "en"))
  else if decide (k = "language_detection_min_prob") then
    of_number (language_detection_min_prob a)
  else if decide (k = "language_detection_max_tries") then
    of_number (language_detection_max_tries a)
  else if decide (k = "initial_prompt") then of_string (initial_prompt a)
  else if decide (k = "batch_size") then
    or_default (of_number (batch_size a)) (JsNumber 64)
  else if decide (k = "temperature") then
    or_default (of_number (temperature a)) (JsNumber 0)
  else if decide (k = "vad_onset") then
    or_default (of_number (vad_onset a)) (JsNumber 0.5)
  else if decide (k = "vad_offset") then
    or_default (of_number (vad_offset a)) (JsNumber 0.363)
  else if decide (k = "align_output") then
    or_default (of_boolean (align_output a)) (JsBoolean true)
  else if decide (k = "diarization") then
    or_default (of_boolean (diarization a)) (JsBoolean true)
  else if decide (k = "huggingface_access_token") then
    of_string (huggingface_access_token a)
  else if decide (k = "min_speakers") then of_number (min_speakers a)
  else if decide (k = "max_speakers") then of_number (max_speakers a)
  else if decide (k = "debug") then
    or_default (of_boolean (debug a)) (JsBoolean false)
  else if decide (k = "filename") then of_string (filename a)
  else JsUndefined.

(** ** The parameter bag (lines 172-189) *)

(** [if (cond) input.k = v;] *)
Definition assign_if (cond : bool) (k : string) (v : JsValue)
    (input : gmap string JsValue) : gmap string JsValue :=
  if cond then <[k := v]> input else input.

Definition build_input (publicUrl : jsstring) (a : Args) : gmap string JsValue :=
  let var := local a in
  let input := {[ "audio_file"%string := JsString publicUrl ]} in
  let input := assign_if (truthy (var "language")) "language" (var "language") input in
  let input := assign_if (truthy (var "initial_prompt")) "initial_prompt" (var "initial_prompt") input in
  let input := assign_if (truthy (var "language_detection_min_prob")) "language_detection_min_prob" (var "language_detection_min_prob") input in
  let input := assign_if (truthy (var "language_detection_max_tries")) "language_detection_max_tries" (var "language_detection_max_tries") input in
  let input := assign_if (defined (var "temperature")) "temperature" (var "temperature") input in
  let input := assign_if (defined (var "batch_size")) "batch_size" (var "batch_size") input in
  let input := assign_if (defined (var "vad_onset")) "vad_onset" (var "vad_onset") input in
  let input := assign_if (defined (var "vad_offset")) "vad_offset" (var "vad_offset") input in
  let input := assign_if (defined (var "align_output")) "align_output" (var "align_output") input in
  let input := assign_if (defined (var "diarization")) "diarization" (var "diarization") input in
  let input := assign_if (defined (var "debug")) "debug" (var "debug") input in
  let input := assign_if (truthy (var "huggingface_access_token")) "huggingface_access_token" (var "huggingface_access_token") input in
  let input := assign_if (defined (var "min_speakers")) "min_speakers" (var "min_speakers") input in
  let input := assign_if (defined (var "max_speakers")) "max_speakers" (var "max_speakers") input in
  input.

(** The keys that the code guards by truthiness ([if (x)]); the other
    optional keys are guarded by [x !== undefined]. *)
Definition truthiness_guarded : list string :=
  [ "language"; "initial_prompt"; "language_detection_min_prob";
    "language_detection_max_tries"; "huggingface_access_token" ]%string.

(** A call that gives the audio file and no optional argument. *)
Definition no_args (file : jsstring) : Args :=
  mkArgs file None None None None None None None None None None None None None None None.

(** The test that guards the assignment of an optional key. *)
Definition guard (k : string) (v : JsValue) : bool :=
  if bool_decide (k ∈ truthiness_guarded) then truthy v else defined v.

(** The sparse-object policy as the spec words it: an optional key is
    left out exactly when its value is [undefined]. *)
Definition omits_exactly_undefined (publicUrl : jsstring) (a : Args) : Prop :=
  ∀ k, k ∈ optional_keys →
       (build_input publicUrl a !! k = None ↔ local a k = JsUndefined).

(** A call whose [initial_prompt] is the empty string. *)
Definition args_empty_prompt : Args :=
  mkArgs (JsString.lit "a.wav") None None None (Some []) None None None None
         None None None None None None None.

(** ** Exceptions *)

(** A thrown value is an [Error] or another value.  What matters of it
    is what the [catch] block makes of it inside its template literal:
    for an [Error], the conversion of [error.message] to a string; for
    another value, [String(error)].  Either conversion yields a string
    or raises in turn: a [Symbol] as message, an object without usable
    [toString] and [valueOf] (a [TypeError]), a [toString] or a getter
    that throws. *)
Inductive Thrown :=
| ErrorObject (message : Converted)
| OtherValue (as_string : Converted)
with Converted :=
| Converts (text : jsstring)
| Raises (fault : Thrown).

Inductive Result (A : Type) :=
| Returns (a : A)
| Throws (e : Thrown).
Arguments Returns {A} a.
Arguments Throws {A} e.

#[global] Instance result_ret : MRet Result := @Returns.
#[global] Instance result_bind : MBind Result :=
  λ A B k m, match m with Returns a => k a | Throws e => Throws e end.

(** [try { body } catch (error) { handler }] *)
Definition try_catch {A} (body : Result A) (handler : Thrown → Result A)
  : Result A :=
  match body with
  | Returns a => Returns a
  | Throws error => handler error
  end.

(** [new Error(message)] for a string [message]. *)
Definition new_error (message : jsstring) : Thrown :=
  ErrorObject (Converts message).

(** [throw new Error(message)] *)
Definition throw_error {A} (message : jsstring) : Result A :=
  Throws (new_error message).

(** ** The collaborators of one invocation *)

(** The result of the inference call: [{detected_language?, segments?}]. *)
Record Output := mkOutput {
  detected_language : option jsstring;
  segments : option (list Segment) }.

(** What is written to a file; the metadata of the two JSON records is
    left out. *)
Inductive FileContent :=
| TranscriptJson (language : jsstring) (segs : list Segment)
| TextFile (text : jsstring)
| SentencesJson (sentence_timestamps : list Sentence).

(** What each external call does during the invocation.  A storage call
    answers [{data, error}], [error] being [null] or an error with a
    message; every call may also throw. *)
Record World := mkWorld {
  listBuckets : Result (option (list jsstring) * option jsstring);
  createBucket : Result (option jsstring);
  readFileSync : jsstring → Result unit;
  upload : Result (option jsstring);
  publicUrl : jsstring;
  replicate_run : gmap string JsValue → Result (option Output);
  cwd : jsstring;
  join : jsstring → jsstring → jsstring;
  mkdirSync : jsstring → Result unit;
  writeFileSync : jsstring → FileContent → Result unit;
  (** [new Date().toISOString()] and its form with [:] and [.] replaced *)
  now_iso : jsstring;
  now_name : jsstring;
  (** [new Date(ms).toISOString().substring(11, 23)]; a [RangeError] on
      an invalid date *)
  clock : float → Result jsstring }.

(** The response [{content: [{type: "text", text}]}]: the success
    summary with the values it interpolates, or a text. *)
Inductive Response :=
| Completed (segmentCount sentenceCount : nat) (duration : float)
            (transcriptPath textPath sentencesPath audioDir : jsstring)
| Text (text : jsstring).

(** ** The handler (lines 110-344) *)

(** Lines 118-143. *)
Definition ensure_bucket (w : World) : Result unit :=
  '(buckets, bucketsError) ← listBuckets w;
  _ ← match bucketsError with
      | Some message =>
          throw_error (JsString.lit "Failed to list buckets: " ++ message)
      | None => mret ()
      end;
  let audioBucketExists :=
    existsb (λ name, bool_decide (name = JsString.lit "audio")) <$> buckets in
  if negb (default false audioBucketExists) then
    createBucketError ← createBucket w;
    match createBucketError with
    | Some message =>
        throw_error (JsString.lit "Failed to create audio bucket: " ++ message)
    | None => mret ()
    end
  else mret ().

(** Lines 145-170. *)
Definition upload_file (w : World) (a : Args) : Result jsstring :=
  _ ← readFileSync w (audio_file a);
  uploadError ← upload w;
  _ ← match uploadError with
      | Some message =>
          throw_error
            (JsString.lit "Failed to upload file to Supabase: " ++ message)
      | None => mret ()
      end;
  mret (publicUrl w).

(** Lines 172-209. *)
Definition transcribe (w : World) (a : Args) (url : jsstring) : Result Output :=
  let input := build_input url a in
  output ← replicate_run w input;
  match output with
  | None => throw_error (JsString.lit "No output received from Replicate API")
  | Some output => mret output
  end.

(** Lines 245-255: one line of the readable transcript per segment. *)
Fixpoint transcript_lines (w : World) (segs : list Segment)
    (textContent : jsstring) : Result jsstring :=
  match segs with
  | [] => mret textContent
  | segment :: rest =>
      startTime ← clock w (PrimFloat.mul (seg_start segment) 1000);
      endTime ← clock w (PrimFloat.mul (seg_end segment) 1000);
      transcript_lines w rest
        (textContent ++ JsString.lit "[" ++ startTime ++ JsString.lit " - "
           ++ endTime ++ JsString.lit "]: "
           ++ JsString.trim (seg_text segment) ++ [10; 10]%N)
  end.

(** The grouping code inside the handler: a failed read is a [TypeError]. *)
Definition sentence_timestamps (output : Output) : Result (list Sentence) :=
  match Eff.value (aggregate (segments output)) with
  | Some sentenceTimestamps => mret sentenceTimestamps
  | None =>
      throw_error (JsString.lit "Cannot read properties of undefined")
  end.

(** [o || d] on an optional string. *)
Definition or_else (o : option jsstring) (d : jsstring) : jsstring :=
  if truthy (of_string o) then default d o else d.

(** Lines 211-221: the directory and the three paths. *)
Definition audioDir (w : World) : jsstring :=
  join w (cwd w) (JsString.lit "audio").

Definition baseFilename (w : World) (a : Args) : jsstring :=
  or_else (filename a) (now_name w).

Definition transcriptPath (w : World) (a : Args) : jsstring :=
  join w (audioDir w) (baseFilename w a ++ JsString.lit "_transcript.json").

Definition textPath (w : World) (a : Args) : jsstring :=
  join w (audioDir w) (baseFilename w a ++ JsString.lit "_transcript.txt").

Definition sentencesPath (w : World) (a : Args) : jsstring :=
  join w (audioDir w) (baseFilename w a ++ JsString.lit "_sentences.json").

(** Lines 211-332. *)
Definition persist (w : World) (a : Args) (output : Output) : Result Response :=
  _ ← mkdirSync w (audioDir w);
  let language := or_else (detected_language output) (JsString.lit "unknown") in
  _ ← writeFileSync w (transcriptPath w a)
        (TranscriptJson language (default [] (segments output)));
  let textContent :=
    JsString.lit "Audio Transcript" ++ [10]%N
      ++ JsString.lit "Transcribed: " ++ now_iso w ++ [10]%N
      ++ JsString.lit "Detected Language: " ++ language ++ [10; 10]%N in
  textContent ← transcript_lines w (default [] (segments output)) textContent;
  _ ← writeFileSync w (textPath w a) (TextFile textContent);
  sentenceTimestamps ← sentence_timestamps output;
  _ ← writeFileSync w (sentencesPath w a) (SentencesJson sentenceTimestamps);
  let segmentCount := length (default [] (segments output)) in
  let duration :=
    match last (default [] (segments output)) with
    | Some final => seg_end final
    | None => 0%float
    end in
  mret (Completed segmentCount (length sentenceTimestamps) duration
          (transcriptPath w a) (textPath w a) (sentencesPath w a) (audioDir w)).

Definition handler_body (w : World) (a : Args) : Result Response :=
  _ ← ensure_bucket w;
  url ← upload_file w a;
  output ← transcribe w a url;
  persist w a output.

(** [${error instanceof Error ? error.message : String(error)}]: the
    string, or the fault that the conversion raises. *)
Definition error_message (error : Thrown) : Result jsstring :=
  match error with
  | ErrorObject (Converts message) => Returns message
  | OtherValue (Converts as_string) => Returns as_string
  | ErrorObject (Raises fault) => Throws fault
  | OtherValue (Raises fault) => Throws fault
  end.

(** The [catch] block is outside any [try]: what it raises leaves the
    handler (the promise of the [async] function is rejected). *)
Definition handler (w : World) (a : Args) : Result Response :=
  try_catch (handler_body w a)
    (λ error,
       message ← error_message error;
       mret (Text (JsString.lit "Error transcribing audio: " ++ message))).

(** The response of the [catch] block. *)
Definition error_text (message : jsstring) : Response :=
  Text (JsString.lit "Error transcribing audio: " ++ message).

(** The [audio] bucket is not among the listed ones. *)
Definition bucket_missing (buckets : option (list jsstring)) : Prop :=
  default false
    (existsb (λ name, bool_decide (name = JsString.lit "audio")) <$> buckets)
  = false.

(** ** Two invocations *)

(** Every collaborator answers without error; the inference returns two
    segments. *)
Definition world_ok : World :=
  {| listBuckets := Returns (Some [JsString.lit "audio"], None);
     createBucket := Returns None;
     readFileSync := λ _, Returns ();
     upload := Returns None;
     publicUrl := JsString.lit "https://host/audio/a.wav";
     replicate_run := λ _,
       Returns (Some (mkOutput (Some (JsString.lit "en"))
                        (Some [seg 0 1 "Hello"; seg 1 2 " world."])));
     cwd := JsString.lit "/srv";
     join := λ d f, d ++ JsString.lit "/" ++ f;
     mkdirSync := λ _, Returns ();
     writeFileSync := λ _ _, Returns ();
     now_iso := JsString.lit "2026-01-01T00:00:00.000Z";
     now_name := JsString.lit "2026-01-01T00-00-00-000Z";
     clock := λ _, Returns (JsString.lit "00:00:00.000") |}.

(** The bucket listing answers with an error. *)
Definition world_listing_fails : World :=
  {| listBuckets := Returns (None, Some (JsString.lit "denied"));
     createBucket := createBucket world_ok;
     readFileSync := readFileSync world_ok;
     upload := upload world_ok;
     publicUrl := publicUrl world_ok;
     replicate_run := replicate_run world_ok;
     cwd := cwd world_ok;
     join := join world_ok;
     mkdirSync := mkdirSync world_ok;
     writeFileSync := writeFileSync world_ok;
     now_iso := now_iso world_ok;
     now_name := now_name world_ok;
     clock := clock world_ok |}.




(** As [world_ok], but every write raises an [Error]. *)
Definition world_write_fails : World :=
  {| listBuckets := listBuckets world_ok;
     createBucket := createBucket world_ok;
     readFileSync := readFileSync world_ok;
     upload := upload world_ok;
     publicUrl := publicUrl world_ok;
     replicate_run := replicate_run world_ok;
     cwd := cwd world_ok;
     join := join world_ok;
     mkdirSync := mkdirSync world_ok;
     writeFileSync := λ _ _,
       Throws (new_error (JsString.lit "EACCES: permission denied"));
     now_iso := now_iso world_ok;
     now_name := now_name world_ok;
     clock := clock world_ok |}.

(** [output.detected_language || "unknown"] *)
Definition detected (output : Output) : jsstring :=
  or_else (detected_language output) (JsString.lit "unknown").

(** The heading of the readable transcript (lines 241-243). *)
Definition heading (w : World) (output : Output) : jsstring :=
  JsString.lit "Audio Transcript" ++ [10]%N
    ++ JsString.lit "Transcribed: " ++ now_iso w ++ [10]%N
    ++ JsString.lit "Detected Language: " ++ detected output ++ [10; 10]%N.

(** The body of the handler has come to the writes for [output]: the
    bucket stage, the upload, the inference and the directory creation
    have returned. *)
Definition reaches_writes (w : World) (a : Args) (output : Output) : Prop :=
  ensure_bucket w = Returns ()
  ∧ upload_file w a = Returns (publicUrl w)
  ∧ transcribe w a (publicUrl w) = Returns output
  ∧ mkdirSync w (audioDir w) = Returns ().

(** ** Further notions *)

(** A text whose last code unit is one of the marks [.], [!], [?]. *)
Definition ends_in_mark (text : jsstring) : Prop :=
  ∃ pre c, text = pre ++ [c] ∧ c ∈ JsString.lit ".!?".

(** The sentence that a segment makes on its own. *)
Definition segment_sentence (s : Segment) : Sentence :=
  {| sentence := JsString.trim (seg_text s);
     start_time := seg_start s;
     end_time := seg_end s;
     duration := PrimFloat.sub (seg_end s) (seg_start s) |}.

(** The optional keys that have a handler default and are guarded by
    [!== undefined]. *)
Definition always_forwarded : list string :=
  [ "temperature"; "batch_size"; "vad_onset"; "vad_offset"; "align_output";
    "diarization"; "debug" ]%string.

(** The clock strings of the start and of the end of every segment can be
    made. *)
Definition stamps_ok (w : World) (segs : list Segment) : Prop :=
  Forall (λ s, (∃ t, clock w (PrimFloat.mul (seg_start s) 1000) = Returns t)
               ∧ (∃ t, clock w (PrimFloat.mul (seg_end s) 1000) = Returns t))
         segs.

(** The clock string of a time, where it can be made. *)
Definition stamp (w : World) (x : float) : jsstring :=
  match clock w (PrimFloat.mul x 1000) with
  | Returns t => t
  | Throws _ => []
  end.

(** The block of the readable transcript for one segment. *)
Definition transcript_block (w : World) (s : Segment) : jsstring :=
  JsString.lit "[" ++ stamp w (seg_start s) ++ JsString.lit " - "
    ++ stamp w (seg_end s) ++ JsString.lit "]: "
    ++ JsString.trim (seg_text s) ++ [10; 10]%N.

(** [duration] of the summary: the end of the last segment, or [0]. *)
Definition summary_duration (segs : list Segment) : float :=
  match last segs with
  | Some final => seg_end final
  | None => 0%float
  end.

(** * Facts *)

(** ** Facts about [trim] and the pattern *)

Section StringFacts.

Import JsString.

Lemma forallb_rev (f : N → bool) (l : list N) :
  forallb f (rev l) = forallb f l.
Proof.
  induction l as [|c l IH]; simpl; [done|].
  rewrite forallb_app, IH. simpl. rewrite andb_true_r. apply andb_comm.
Qed.

Lemma trimStart_split (s : jsstring) :
  ∃ l, s = l ++ trimStart s ∧ forallb is_space l = true.
Proof.
  induction s as [|c s [l [Hs Hl]]]; simpl.
  - by exists [].
  - destruct (is_space c) eqn:Hc.
    + exists (c :: l). simpl. rewrite Hc, Hl. split; [congruence|done].
    + by exists [].
Qed.

Lemma trimStart_head (s : jsstring) (c : N) (r : jsstring) :
  trimStart s = c :: r → is_space c = false.
Proof.
  induction s as [|d s IH]; simpl; [done|].
  destruct (is_space d) eqn:Hd; [done|]. congruence.
Qed.

Lemma trimStart_all_space (s : jsstring) :
  forallb is_space s = true → trimStart s = [].
Proof.
  induction s as [|c s IH]; simpl; [done|].
  intros [Hc Hs]%andb_true_iff. by rewrite Hc; apply IH.
Qed.

Lemma trimEnd_split (s : jsstring) :
  ∃ r, s = trimEnd s ++ r ∧ forallb is_space r = true.
Proof.
  unfold trimEnd. destruct (trimStart_split (rev s)) as [l [Hs Hl]].
  exists (rev l). split; [|by rewrite forallb_rev].
  rewrite <- rev_app_distr, <- Hs. by rewrite rev_involutive.
Qed.

Lemma trimEnd_last (s pre : jsstring) (c : N) :
  trimEnd s = pre ++ [c] → is_space c = false.
Proof.
  unfold trimEnd. intros H. apply (f_equal (@rev N)) in H.
  rewrite rev_involutive, rev_app_distr in H. simpl in H.
  by apply trimStart_head in H.
Qed.

(** [trim] strips a white-space prefix and a white-space suffix, and
    nothing else. *)
Lemma trim_split (s : jsstring) :
  ∃ l r, s = l ++ trim s ++ r
         ∧ forallb is_space l = true ∧ forallb is_space r = true.
Proof.
  destruct (trimStart_split s) as [l [Hs Hl]].
  destruct (trimEnd_split (trimStart s)) as [r [Ht Hr]].
  exists l, r. unfold trim. by rewrite <- Ht.
Qed.

Lemma trim_last (s pre : jsstring) (c : N) :
  trim s = pre ++ [c] → is_space c = false.
Proof. apply trimEnd_last. Qed.

Lemma trim_head (s : jsstring) (c : N) (r : jsstring) :
  trim s = c :: r → is_space c = false.
Proof.
  intros H. destruct (trimEnd_split (trimStart s)) as [r' [Ht _]].
  fold (trim s) in Ht. rewrite H in Ht. simpl in Ht.
  by apply trimStart_head in Ht.
Qed.

Lemma trim_all_space (s : jsstring) :
  forallb is_space s = true → trim s = [].
Proof. intros H. unfold trim. by rewrite (trimStart_all_space s H). Qed.

Lemma trim_nil_all_space (s : jsstring) :
  trim s = [] → forallb is_space s = true.
Proof.
  intros H. destruct (trim_split s) as [l [r [Hs [Hl Hr]]]].
  rewrite H in Hs. rewrite Hs, forallb_app. simpl. by rewrite Hl, Hr.
Qed.

Lemma is_terminal_marks (c : N) :
  Pattern.is_terminal c = true ↔ c ∈ lit ".!?".
Proof.
  unfold Pattern.is_terminal. simpl.
  rewrite !orb_true_iff, !N.eqb_eq, !elem_of_cons, elem_of_nil. tauto.
Qed.

Lemma is_terminal_not_space (c : N) :
  Pattern.is_terminal c = true → is_space c = false.
Proof.
  intros H%is_terminal_marks. simpl in H.
  rewrite !elem_of_cons, elem_of_nil in H.
  destruct H as [->|[->|[->|[]]]]; reflexivity.
Qed.

(** What the search of the unanchored pattern finds. *)
Lemma test_spec (s : jsstring) :
  Pattern.test s = true ↔
  ∃ pre c ws, s = pre ++ c :: ws ∧ Pattern.is_terminal c = true
              ∧ forallb is_space ws = true.
Proof.
  induction s as [|d s IH]; simpl.
  - split; [done|]. intros (pre & c & ws & H & _). by destruct pre.
  - rewrite orb_true_iff, andb_true_iff, IH. split.
    + intros [[Hd Hs]|(pre & c & ws & -> & Hc & Hws)].
      * by exists [], d, s.
      * by exists (d :: pre), c, ws.
    + intros (pre & c & ws & H & Hc & Hws). destruct pre as [|e pre].
      * simpl in H. injection H as -> ->. by left.
      * simpl in H. injection H as -> ->. right. by exists pre, c, ws.
Qed.

Lemma test_all_space (s : jsstring) :
  forallb is_space s = true → Pattern.test s = false.
Proof.
  intros Hs. apply not_true_is_false. intros (pre & c & ws & -> & Hc & _)%test_spec.
  rewrite forallb_app in Hs. simpl in Hs.
  rewrite (is_terminal_not_space c Hc) in Hs. simpl in Hs.
  by rewrite andb_false_r in Hs.
Qed.

End StringFacts.

Section LoopFacts.

Variable segments : list Segment.

Lemma drop_cons_inv (i : nat) (s : Segment) (rest : list Segment) :
  drop i segments = s :: rest →
  segments !! i = Some s ∧ drop (S i) segments = rest
  ∧ Z.of_nat (length segments) = (Z.of_nat i + 1 + Z.of_nat (length rest))%Z.
Proof.
  intros H.
  assert (Hl : segments !! i = Some s).
  { pose proof (lookup_drop segments i 0) as E.
    rewrite H, Nat.add_0_r in E. by simpl in E. }
  split; [done|]. split.
  - rewrite (drop_S _ _ _ Hl) in H. congruence.
  - apply (f_equal length) in H. rewrite length_drop in H. simpl in H. lia.
Qed.

Lemma loop_body_spec (i : nat) (s : Segment) (rest : list Segment)
    (st : LoopState) (log : list nat) :
  drop i segments = s :: rest →
  ∃ log', loop_body segments i st log = Some (after_iteration s rest st, log').
Proof.
  intros Hdrop. destruct (drop_cons_inv i s rest Hdrop) as (Hi & Hrest & Hlen).
  unfold loop_body, after_iteration.
  unfold mbind, eff_bind, Eff.bind at 1. unfold Eff.read at 1. rewrite Hi.
  fold (closes s). destruct rest as [|next rest].
  - replace (Z.of_nat i =? Z.of_nat (length segments) - 1)%Z with true
      by (symmetry; apply Z.eqb_eq; simpl in Hlen; lia).
    replace (Z.of_nat i <? Z.of_nat (length segments) - 1)%Z with false
      by (symmetry; apply Z.ltb_ge; simpl in Hlen; lia).
    cbn [is_last]. rewrite !orb_true_r. by eexists.
  - replace (Z.of_nat i =? Z.of_nat (length segments) - 1)%Z with false
      by (symmetry; apply Z.eqb_neq; simpl in Hlen; lia).
    replace (Z.of_nat i <? Z.of_nat (length segments) - 1)%Z with true
      by (symmetry; apply Z.ltb_lt; simpl in Hlen; lia).
    destruct (drop_cons_inv (S i) next rest Hrest) as (Hi' & _ & _).
    cbn [is_last]. rewrite !orb_false_r.
    destruct (closes s); [|by eexists].
    unfold Eff.bind, Eff.read. replace (i + 1) with (S i) by lia.
    rewrite Hi'. by eexists.
Qed.

Lemma group_after_iteration (s : Segment) (rest : list Segment) (st : LoopState) :
  sentenceTimestamps st ++ group (currentSentence st) (sentenceStart st) (s :: rest)
  = let st1 := after_iteration s rest st in
    sentenceTimestamps st1 ++ group (currentSentence st1) (sentenceStart st1) rest.
Proof.
  cbn [group]. unfold after_iteration. cbv zeta.
  destruct (closes s || is_last rest); [|done].
  destruct rest as [|next rest]; cbn [sentenceTimestamps currentSentence sentenceStart].
  - by rewrite app_nil_r.
  - by rewrite <- app_assoc.
Qed.

Lemma for_each_group (rest : list Segment) :
  ∀ (i : nat) (st : LoopState) (log : list nat),
    drop i segments = rest →
    ∃ st' log',
      Eff.for_each (seq i (length rest)) (loop_body segments) st log
        = Some (st', log')
      ∧ sentenceTimestamps st' =
          sentenceTimestamps st ++ group (currentSentence st) (sentenceStart st) rest.
Proof.
  induction rest as [|s rest IH]; intros i st log Hdrop.
  - exists st, log. split; [done|]. cbn [group]. by rewrite app_nil_r.
  - destruct (loop_body_spec i s rest st log Hdrop) as [log1 Hbody].
    destruct (drop_cons_inv i s rest Hdrop) as (_ & Hrest & _).
    destruct (IH (S i) (after_iteration s rest st) log1 Hrest)
      as (st' & log' & Hrun & Hout).
    exists st', log'. split.
    + cbn [length seq Eff.for_each]. unfold Eff.bind at 1. by rewrite Hbody.
    + by rewrite Hout, group_after_iteration.
Qed.

End LoopFacts.

(** The handler's grouping code never fails, and computes [grouped]. *)
Lemma aggregate_grouped (segs : list Segment) :
  ∃ log, Eff.run (aggregate (Some segs)) = Some (grouped segs, log).
Proof.
  destruct segs as [|first segs]; [by exists []|].
  unfold aggregate, Eff.run.
  change (0 <? length (first :: segs)) with true. cbv iota.
  unfold mbind, eff_bind, Eff.bind at 1. unfold Eff.read at 1.
  change ((first :: segs) !! 0) with (Some first). cbv iota beta.
  edestruct (for_each_group (first :: segs) (first :: segs) 0) as
    (st' & log' & Hrun & Hout); [reflexivity|].
  unfold Eff.bind at 1. rewrite Hrun. unfold mret, eff_ret, Eff.ret.
  exists log'. by rewrite Hout.
Qed.

Section RunFacts.

Import JsString.

Lemma closes_spec (s : Segment) :
  closes s = true ↔ ends_with_terminal_mark (seg_text s).
Proof.
  unfold closes, ends_with_terminal_mark. rewrite test_spec.
  split; intros (pre & c & ws & H & Hc & Hws); exists pre, c, ws.
  - split; [done|]. split; [by apply is_terminal_marks|].
    apply Forall_forall. intros w Hw%list_elem_of_In.
    by apply (proj1 (forallb_forall _ _) Hws).
  - split; [done|]. split; [by apply is_terminal_marks|].
    apply forallb_forall. intros w Hw%list_elem_of_In.
    by apply (proj1 (Forall_forall _ _) Hws).
Qed.

Lemma closes_false_spec (s : Segment) :
  closes s = false ↔ ¬ ends_with_terminal_mark (seg_text s).
Proof. rewrite <- closes_spec. by destruct (closes s). Qed.

Lemma split_runs_spec (segs : list Segment) :
  ∀ cur, Forall (λ x, ¬ ends_with_terminal_mark (seg_text x)) cur →
         segs ≠ [] →
         SentenceRuns (cur ++ segs) (split_runs cur segs).
Proof.
  induction segs as [|s rest IH]; intros cur Hcur Hne; [done|].
  cbn [split_runs]. destruct rest as [|next rest].
  - cbn [is_last]. rewrite orb_true_r. by apply runs_final.
  - cbn [is_last]. rewrite orb_false_r. destruct (closes s) eqn:Hc.
    + apply runs_cut; [done|by apply closes_spec|].
      by apply (IH []).
    + replace (cur ++ s :: next :: rest) with ((cur ++ [s]) ++ next :: rest)
        by (by rewrite <- app_assoc).
      apply IH; [|done]. apply Forall_app. split; [done|].
      apply Forall_singleton. by apply closes_false_spec.
Qed.

Lemma SentenceRuns_concat (segs : list Segment) (rs : list Run) :
  SentenceRuns segs rs → concat (map run_segments rs) = segs.
Proof.
  induction 1 as [|init s H|init s next rest rs H Hs Hrs IH]; simpl.
  - done.
  - by rewrite app_nil_r.
  - rewrite IH. unfold run_segments. simpl. by rewrite <- app_assoc.
Qed.

Lemma hd_app_singleton (cur : list Segment) (s d : Segment) (rest : list Segment) :
  hd d (cur ++ s :: rest) = hd s cur.
Proof. by destruct cur. Qed.

Lemma group_split_runs (segs : list Segment) :
  ∀ cur acc start d,
    acc = concat (map seg_text cur) →
    start = seg_start (hd d (cur ++ segs)) →
    group acc start segs = map run_sentence (split_runs cur segs).
Proof.
  induction segs as [|s rest IH]; intros cur acc start d Hacc Hstart; [done|].
  cbn [group split_runs]. destruct (closes s || is_last rest).
  - cbn [map]. f_equal.
    + unfold run_sentence, run_text, run_segments, run_first. simpl.
      rewrite map_app, concat_app. simpl. rewrite app_nil_r.
      rewrite hd_app_singleton in Hstart. by rewrite Hacc, Hstart.
    + destruct rest as [|next rest]; [done|]. by apply (IH [] _ _ next).
  - apply (IH _ _ _ d).
    + rewrite map_app, concat_app. simpl. by rewrite app_nil_r, Hacc.
    + by rewrite <- app_assoc.
Qed.

Lemma grouped_runs (segs : list Segment) :
  grouped segs = map run_sentence (split_runs [] segs)
  ∧ SentenceRuns segs (split_runs [] segs).
Proof.
  destruct segs as [|first segs]; [split; [done|constructor]|].
  split.
  - by apply (group_split_runs _ [] _ _ first).
  - by apply (split_runs_spec (first :: segs) []).
Qed.

End RunFacts.

Section AggregateFacts.

Import JsString.

Lemma value_grouped (segs : list Segment) :
  Eff.value (aggregate (Some segs)) = Some (grouped segs).
Proof.
  destruct (aggregate_grouped segs) as [log H].
  unfold Eff.value. by rewrite H.
Qed.

Lemma split_runs_cut (init : list Segment) :
  ∀ cur s rest,
    Forall (λ x, ¬ ends_with_terminal_mark (seg_text x)) init →
    closes s || is_last rest = true →
    split_runs cur (init ++ s :: rest)
    = mkRun (cur ++ init) s :: split_runs [] rest.
Proof.
  induction init as [|x init IH]; intros cur s rest Hinit Hs.
  - cbn [app split_runs]. by rewrite Hs, app_nil_r.
  - apply Forall_cons in Hinit as [Hx Hinit].
    apply closes_false_spec in Hx.
    cbn [app split_runs]. rewrite Hx.
    replace (is_last (init ++ s :: rest)) with false by (by destruct init).
    cbn [orb]. rewrite (IH _ _ _ Hinit Hs). by rewrite <- app_assoc.
Qed.

Lemma SentenceRuns_unique (segs : list Segment) (rs : list Run) :
  SentenceRuns segs rs → rs = split_runs [] segs.
Proof.
  induction 1 as [|init s H|init s next rest rs H Hs Hrs IH].
  - done.
  - rewrite split_runs_cut; [done|done|]. apply orb_true_r.
  - rewrite split_runs_cut; [by rewrite IH|done|].
    apply closes_spec in Hs. by rewrite Hs.
Qed.

Lemma forallb_all_space (s : jsstring) :
  forallb is_space s = true ↔ all_space s.
Proof.
  unfold all_space. rewrite forallb_forall, Forall_forall.
  split; intros H c Hc; apply H; by apply list_elem_of_In.
Qed.

Lemma remove_space_all_space (s : jsstring) :
  all_space s → remove_space s = [].
Proof.
  unfold remove_space. induction 1 as [|c s Hc Hs IH]; [done|].
  rewrite filter_cons_False; [done|]. by rewrite Hc.
Qed.

Lemma remove_space_trim (s : jsstring) :
  remove_space (trim s) = remove_space s.
Proof.
  destruct (trim_split s) as (l & r & Hs & Hl & Hr).
  rewrite Hs at 2. unfold remove_space. rewrite !filter_app.
  fold (remove_space l) (remove_space r).
  rewrite (remove_space_all_space l), (remove_space_all_space r), app_nil_r;
    [done| |]; by apply forallb_all_space.
Qed.

Lemma remove_space_sentences (rs : list Run) :
  remove_space (concat (map sentence (map run_sentence rs)))
  = remove_space (concat (map seg_text (concat (map run_segments rs)))).
Proof.
  unfold remove_space.
  induction rs as [|r rs IH]; [done|].
  cbn [map concat]. rewrite map_app, concat_app, !filter_app, IH. f_equal.
  apply remove_space_trim.
Qed.

Lemma run_sentence_trimmed (r : Run) :
  ∃ l t, run_text r = l ++ sentence (run_sentence r) ++ t
         ∧ all_space l ∧ all_space t.
Proof.
  destruct (trim_split (run_text r)) as (l & t & Hs & Hl & Ht).
  exists l, t. split; [exact Hs|]. by split; apply forallb_all_space.
Qed.

Lemma group_length (segs : list Segment) :
  ∀ acc start, length (group acc start segs) ≤ length segs.
Proof.
  induction segs as [|s rest IH]; intros acc start; [done|].
  cbn [group]. destruct (closes s || is_last rest).
  - cbn [length]. destruct rest as [|next rest]; [simpl; lia|].
    specialize (IH [] (seg_start next)). lia.
  - specialize (IH (acc ++ seg_text s) start). simpl. lia.
Qed.

Lemma group_head (segs : list Segment) :
  ∀ acc start, segs ≠ [] →
    ∃ sent, head (group acc start segs) = Some sent ∧ start_time sent = start.
Proof.
  induction segs as [|s rest IH]; intros acc start Hne; [done|].
  cbn [group]. destruct (closes s || is_last rest) eqn:Hc.
  - by eexists.
  - apply IH. destruct rest; [|done]. by rewrite orb_true_r in Hc.
Qed.

Lemma group_last (segs : list Segment) :
  ∀ acc start, segs ≠ [] →
    ∃ sent, last (group acc start segs) = Some sent
            ∧ Some (end_time sent) = seg_end <$> last segs.
Proof.
  induction segs as [|s rest IH]; intros acc start Hne; [done|].
  cbn [group]. destruct rest as [|next rest].
  - cbn [is_last]. rewrite orb_true_r. by eexists.
  - cbn [is_last]. rewrite orb_false_r.
    destruct (closes s).
    + destruct (IH [] (seg_start next)) as (sent & Hl & He); [done|].
      exists sent. rewrite last_cons, Hl. split; [done|].
      exact He.
    + destruct (IH (acc ++ seg_text s) start) as (sent & Hl & He); [done|].
      exists sent. split; [done|]. exact He.
Qed.

Lemma group_times (segs : list Segment) :
  ∀ acc start,
    Forall (λ sent,
              duration sent = PrimFloat.sub (end_time sent) (start_time sent)
              ∧ start_time sent ∈ start :: map seg_start segs
              ∧ end_time sent ∈ map seg_end segs)
           (group acc start segs).
Proof.
  induction segs as [|s rest IH]; intros acc start; [constructor|].
  cbn [group]. destruct (closes s || is_last rest).
  - constructor.
    + cbn. split; [done|]. split; constructor.
    + destruct rest as [|next rest]; [constructor|].
      eapply Forall_impl; [apply (IH [] (seg_start next))|].
      cbn. intros sent (Hd & Hs & He). split; [done|]. split.
      * apply elem_of_cons in Hs as [->|Hs]; [|by do 2 right].
        right; right; left.
      * by right.
  - eapply Forall_impl; [apply (IH (acc ++ seg_text s) start)|].
    cbn. intros sent (Hd & Hs & He). split; [done|]. split.
    + apply elem_of_cons in Hs as [->|Hs]; [left|by do 2 right].
    + by right.
Qed.

End AggregateFacts.

Section BlankFacts.

Import JsString.

Lemma closes_blank (t : Segment) : blank t → closes t = false.
Proof. unfold blank, closes. by intros ->. Qed.

Lemma group_blank (ts : list Segment) :
  ∀ t0 acc start,
    forallb is_space acc = true →
    Forall blank (t0 :: ts) →
    ∃ e, seg_end <$> last (t0 :: ts) = Some e
         ∧ group acc start (t0 :: ts)
           = [ {| sentence := []; start_time := start; end_time := e;
                  duration := PrimFloat.sub e start |} ].
Proof.
  induction ts as [|t1 ts IH]; intros t0 acc start Hacc Hb;
    apply Forall_cons in Hb as [Ht0 Hts].
  - exists (seg_end t0). split; [done|].
    cbn [group is_last]. rewrite orb_true_r.
    rewrite (trim_all_space (acc ++ seg_text t0)); [done|].
    by rewrite forallb_app, Hacc, (trim_nil_all_space _ Ht0).
  - destruct (IH t1 (acc ++ seg_text t0) start) as (e & He & Hg); [|done|].
    { by rewrite forallb_app, Hacc, (trim_nil_all_space _ Ht0). }
    exists e. split; [exact He|].
    cbn [group is_last] in *. by rewrite (closes_blank t0 Ht0).
Qed.

Lemma group_app_cut (pre : list Segment) :
  ∀ acc start s next rest,
    closes s = true →
    ∃ front,
      group acc start (pre ++ s :: next :: rest)
      = front ++ group [] (seg_start next) (next :: rest).
Proof.
  induction pre as [|x pre IH]; intros acc start s next rest Hs.
  - cbn [app group is_last]. rewrite Hs. cbn [orb]. by eexists [_].
  - cbn [app group].
    destruct (pre ++ s :: next :: rest) as [|n l] eqn:E.
    { by destruct pre. }
    cbn [is_last]. rewrite orb_false_r. destruct (closes x).
    + rewrite <- E. destruct (IH [] (seg_start n) s next rest Hs) as [front Hf].
      rewrite Hf. by eexists (_ :: front).
    + rewrite <- E. apply IH, Hs.
Qed.

End BlankFacts.

(** * The claims about the Sentence Aggregator *)

(** C1: the grouping code closes a sentence exactly after the segments
    whose trimmed text ends with [.], [!] or [?] and after the final
    segment: its output is the list of the sentences of the unique cut of
    the input into such runs, each sentence being the trimmed
    concatenation of the texts of its run, from the start of the first
    segment of the run to the end of its final segment, with the
    difference of the two as duration. *)
Theorem aggregate_sentence_runs (segs : list Segment) :
  ∃ rs, SentenceRuns segs rs
        ∧ (∀ rs', SentenceRuns segs rs' → rs' = rs)
        ∧ Eff.value (aggregate (Some segs)) = Some (map run_sentence rs).
Proof.
  exists (split_runs [] segs). destruct (grouped_runs segs) as [Hg Hr].
  split; [exact Hr|]. split; [apply SentenceRuns_unique|].
  by rewrite value_grouped, Hg.
Qed.

Lemma aggregate_sentence_runs_witness :
  ∃ rs, SentenceRuns [seg 0 1 "One."; seg 1 2 "Two"; seg 2 3 " three"] rs
        ∧ (∀ rs', SentenceRuns [seg 0 1 "One."; seg 1 2 "Two"; seg 2 3 " three"] rs'
                  → rs' = rs)
        ∧ Eff.value (aggregate (Some [seg 0 1 "One."; seg 1 2 "Two"; seg 2 3 " three"]))
          = Some (map run_sentence rs).
Proof.
  apply (aggregate_sentence_runs [seg 0 1 "One."; seg 1 2 "Two"; seg 2 3 " three"]).
Defined.

(** C2: the sentence texts, concatenated in order, are the segment texts,
    concatenated in order, up to white space; each sentence text is the
    accumulated text of a contiguous run of segments with a prefix and a
    suffix of white space removed, and nothing else. *)
Theorem aggregate_preserves_text (segs : list Segment) :
  ∃ out rs,
    Eff.value (aggregate (Some segs)) = Some out
    ∧ remove_space (concat (map sentence out))
      = remove_space (concat (map seg_text segs))
    ∧ concat (map run_segments rs) = segs
    ∧ Forall2 (λ r sent, ∃ l t, run_text r = l ++ sentence sent ++ t
                               ∧ all_space l ∧ all_space t) rs out.
Proof.
  destruct (grouped_runs segs) as [Hg Hr].
  exists (grouped segs), (split_runs [] segs).
  pose proof (SentenceRuns_concat _ _ Hr) as Hc.
  split; [apply value_grouped|]. split; [|split; [exact Hc|]].
  - rewrite Hg, remove_space_sentences. by rewrite Hc.
  - rewrite Hg. apply Forall2_fmap_r, Forall_Forall2_diag, Forall_forall.
    intros r _. apply run_sentence_trimmed.
Qed.

(** C3: on a non-empty input the output is non-empty and its last
    sentence ends where the last segment ends. *)
Theorem aggregate_last_end_time (segs : list Segment) :
  segs ≠ [] →
  ∃ out sent,
    Eff.value (aggregate (Some segs)) = Some out
    ∧ out ≠ []
    ∧ last out = Some sent
    ∧ Some (end_time sent) = seg_end <$> last segs.
Proof.
  intros Hne. rewrite value_grouped. destruct segs as [|first segs]; [done|].
  destruct (group_last (first :: segs) [] (seg_start first) Hne)
    as (sent & Hl & He).
  exists (grouped (first :: segs)), sent. split; [done|].
  split; [|by split]. unfold grouped. intros E. by rewrite E in Hl.
Qed.

Lemma aggregate_last_end_time_witness :
  [seg 0 1 "Hi"; seg 1 2 "there"] ≠ []
  ∧ ∃ out sent,
      Eff.value (aggregate (Some [seg 0 1 "Hi"; seg 1 2 "there"])) = Some out
      ∧ out ≠ []
      ∧ last out = Some sent
      ∧ Some (end_time sent) = seg_end <$> last [seg 0 1 "Hi"; seg 1 2 "there"].
Proof.
  split; [discriminate|].
  apply (aggregate_last_end_time [seg 0 1 "Hi"; seg 1 2 "there"]). discriminate.
Defined.

(** C5: there are at most as many sentences as segments, and at least one
    when there is a segment. *)
Theorem aggregate_count (segs : list Segment) :
  ∃ out,
    Eff.value (aggregate (Some segs)) = Some out
    ∧ length out ≤ length segs
    ∧ (segs ≠ [] → 1 ≤ length out).
Proof.
  exists (grouped segs). split; [apply value_grouped|].
  destruct segs as [|first segs]; [by split|]. split.
  - apply group_length.
  - intros Hne.
    destruct (group_head (first :: segs) [] (seg_start first) Hne) as (sent & Hh & _).
    unfold grouped. destruct (group _ _ _); [done|simpl; lia].
Qed.

Lemma aggregate_count_witness :
  ∃ out,
    Eff.value (aggregate (Some [seg 0 1 "Hi."; seg 1 2 "there"; seg 2 3 "you"]))
      = Some out
    ∧ length out ≤ 3
    ∧ ([seg 0 1 "Hi."; seg 1 2 "there"; seg 2 3 "you"] ≠ [] → 1 ≤ length out).
Proof.
  apply (aggregate_count [seg 0 1 "Hi."; seg 1 2 "there"; seg 2 3 "you"]).
Defined.

(** C6: the output is empty exactly when the input is: on the empty
    sequence the code returns the empty sequence, fails nowhere and reads
    no element of the sequence; on every other input it returns a
    non-empty sequence. *)
Theorem aggregate_empty_iff :
  Eff.run (aggregate (Some [])) = Some ([], [])
  ∧ ∀ segs, ∃ out,
      Eff.value (aggregate (Some segs)) = Some out ∧ (out = [] ↔ segs = []).
Proof.
  split; [done|]. intros segs. exists (grouped segs).
  split; [apply value_grouped|].
  destruct segs as [|first segs]; [done|].
  destruct (group_head (first :: segs) [] (seg_start first)) as (sent & Hh & _);
    [done|].
  unfold grouped. split; [|done]. intros E. by rewrite E in Hh.
Qed.

(** C7: on a non-empty input the first sentence starts where the first
    segment starts. *)
Theorem aggregate_first_start_time (segs : list Segment) :
  segs ≠ [] →
  ∃ out sent,
    Eff.value (aggregate (Some segs)) = Some out
    ∧ head out = Some sent
    ∧ Some (start_time sent) = seg_start <$> head segs.
Proof.
  intros Hne. rewrite value_grouped. destruct segs as [|first segs]; [done|].
  destruct (group_head (first :: segs) [] (seg_start first) Hne)
    as (sent & Hh & Hs).
  exists (grouped (first :: segs)), sent. split; [done|]. split; [done|].
  by rewrite Hs.
Qed.

Lemma aggregate_first_start_time_witness :
  [seg 3 4 "Hello"; seg 4 5 " world."] ≠ []
  ∧ ∃ out sent,
      Eff.value (aggregate (Some [seg 3 4 "Hello"; seg 4 5 " world."])) = Some out
      ∧ head out = Some sent
      ∧ Some (start_time sent) = seg_start <$> head [seg 3 4 "Hello"; seg 4 5 " world."].
Proof.
  split; [discriminate|].
  apply (aggregate_first_start_time [seg 3 4 "Hello"; seg 4 5 " world."]).
  discriminate.
Defined.

(** C9: the duration of every sentence is the floating-point difference
    of its end time and its start time, which are a start and an end of
    input segments, unchanged; nothing checks the sign: inputs whose
    times are not increasing yield a zero and a negative duration. *)
Theorem aggregate_duration :
  (∀ segs, ∃ out,
      Eff.value (aggregate (Some segs)) = Some out
      ∧ Forall (λ sent,
                  duration sent = PrimFloat.sub (end_time sent) (start_time sent)
                  ∧ start_time sent ∈ map seg_start segs
                  ∧ end_time sent ∈ map seg_end segs) out)
  ∧ Eff.value (aggregate (Some [seg 2 2 "Hi."]))
    = Some [ {| sentence := JsString.lit "Hi."; start_time := 2;
                end_time := 2; duration := 0 |} ]
  ∧ Eff.value (aggregate (Some [seg 2 1 "Hi."]))
    = Some [ {| sentence := JsString.lit "Hi."; start_time := 2;
                end_time := 1; duration := (-1) |} ].
Proof.
  split; [|split; vm_compute; reflexivity].
  intros segs. exists (grouped segs). split; [apply value_grouped|].
  destruct segs as [|first segs]; [constructor|].
  eapply Forall_impl; [apply (group_times (first :: segs) [] (seg_start first))|].
  cbn. intros sent (Hd & Hs & He). split; [done|]. split; [|done].
  apply elem_of_cons in Hs as [->|Hs]; [left|done].
Qed.

(** C10: some non-empty input yields a sentence with the empty text;
    whenever a segment passes the punctuation test and every segment
    after it has a text that trims to the empty string, the last sentence
    emitted has the empty text, starts at the start of the first of those
    segments and ends at the end of the last one. *)
Theorem aggregate_blank_tail :
  (∃ segs out sent,
      segs ≠ []
      ∧ Eff.value (aggregate (Some segs)) = Some out
      ∧ sent ∈ out ∧ sentence sent = [])
  ∧ ∀ (pre : list Segment) (s t0 : Segment) (ts : list Segment),
      ends_with_terminal_mark (seg_text s) →
      Forall blank (t0 :: ts) →
      ∃ out sent,
        Eff.value (aggregate (Some (pre ++ s :: t0 :: ts))) = Some out
        ∧ last out = Some sent
        ∧ sentence sent = []
        ∧ start_time sent = seg_start t0
        ∧ Some (end_time sent) = seg_end <$> last (t0 :: ts).
Proof.
  split.
  { exists [seg 0 1 "Hi."; seg 1 2 " "],
           [mkSentence (JsString.lit "Hi.") 0 1 1; mkSentence [] 1 2 1],
           (mkSentence [] 1 2 1).
    split; [done|]. split; [vm_compute; reflexivity|].
    split; [|done]. right. left. }
  intros pre s t0 ts Hs%closes_spec Hb. rewrite value_grouped.
  destruct (group_blank ts t0 [] (seg_start t0) eq_refl Hb) as (e & He & Hg).
  assert (∃ front, grouped (pre ++ s :: t0 :: ts)
                   = front ++ group [] (seg_start t0) (t0 :: ts)) as [front Hf].
  { unfold grouped. destruct (pre ++ s :: t0 :: ts) as [|first l] eqn:E.
    { by destruct pre. }
    rewrite <- E. apply group_app_cut, Hs. }
  eexists _, _. split; [reflexivity|]. rewrite Hf, Hg, last_snoc.
  by rewrite He.
Qed.

Lemma aggregate_blank_tail_witness :
  ends_with_terminal_mark (seg_text (seg 0 1 "Hi."))
  ∧ Forall blank [seg 1 2 " "]
  ∧ ∃ out sent,
      Eff.value (aggregate (Some ([] ++ seg 0 1 "Hi." :: [seg 1 2 " "]))) = Some out
      ∧ last out = Some sent
      ∧ sentence sent = []
      ∧ start_time sent = 1%float
      ∧ Some (end_time sent) = Some 2%float.
Proof.
  assert (H1 : ends_with_terminal_mark (seg_text (seg 0 1 "Hi."))).
  { exists (JsString.lit "Hi"), 46%N, []. split; [reflexivity|].
    split; [|constructor]. vm_compute. left. }
  assert (H2 : Forall blank [seg 1 2 " "]).
  { repeat constructor. }
  split; [exact H1|]. split; [exact H2|].
  exact (proj2 aggregate_blank_tail [] (seg 0 1 "Hi.") (seg 1 2 " ") [] H1 H2).
Defined.

Section InputFacts.

Lemma lookup_assign_if (c : bool) (k : string) (v : JsValue)
    (m : gmap string JsValue) (k' : string) :
  assign_if c k v m !! k' = if c && bool_decide (k = k') then Some v else m !! k'.
Proof.
  unfold assign_if. destruct c; [|done]. cbn [andb].
  case_bool_decide as E.
  - subst. apply lookup_insert_eq.
  - by apply lookup_insert_ne.
Qed.

Lemma build_input_lookup (publicUrl : jsstring) (a : Args) (k : string) :
  k ∈ optional_keys →
  build_input publicUrl a !! k
  = if guard k (local a k) then Some (local a k) else None.
Proof.
  unfold optional_keys. rewrite !elem_of_cons, elem_of_nil.
  intros H. unfold build_input. cbv zeta. rewrite !lookup_assign_if.
  repeat destruct H as [->|H]; [..|done].
  all: repeat first
         [ rewrite bool_decide_eq_true_2 by reflexivity
         | rewrite bool_decide_eq_false_2 by discriminate ].
  all: rewrite ?andb_true_r, ?andb_false_r.
  all: rewrite lookup_singleton_ne by discriminate.
  all: reflexivity.
Qed.

End InputFacts.

(** C4, as stated, fails: an [initial_prompt] that is the empty string is
    a value, not [undefined], and the key is left out all the same. *)
Lemma input_omits_empty_prompt :
  initial_prompt args_empty_prompt = Some []
  ∧ local args_empty_prompt "initial_prompt" = JsString []
  ∧ build_input (JsString.lit "https://host/a.wav") args_empty_prompt
      !! "initial_prompt"%string = None
  ∧ ¬ omits_exactly_undefined (JsString.lit "https://host/a.wav") args_empty_prompt.
Proof.
  split; [done|]. split; [done|].
  assert (E : build_input (JsString.lit "https://host/a.wav") args_empty_prompt
                !! "initial_prompt"%string = None).
  { rewrite build_input_lookup; [done|]. unfold optional_keys.
    rewrite !elem_of_cons. tauto. }
  split; [exact E|]. intros H.
  specialize (H "initial_prompt"%string). rewrite E in H.
  assert (Hk : "initial_prompt"%string ∈ optional_keys).
  { unfold optional_keys. rewrite !elem_of_cons. tauto. }
  destruct (H Hk) as [H1 _]. by specialize (H1 eq_refl).
Qed.

(** C4, amended: an optional key is left out exactly when the handler's
    value for it (the caller's value or, where the parameter list has
    one, the handler's default) is [undefined] or, for the keys guarded
    by truthiness, falsy; a key that is present holds that value. *)
Theorem input_sparse_policy (publicUrl : jsstring) (a : Args) (k : string) :
  k ∈ optional_keys →
  (build_input publicUrl a !! k = None
   ↔ local a k = JsUndefined
     ∨ (k ∈ truthiness_guarded ∧ truthy (local a k) = false))
  ∧ (∀ v, build_input publicUrl a !! k = Some v → v = local a k).
Proof.
  intros Hk. rewrite (build_input_lookup _ _ _ Hk). unfold guard.
  case_bool_decide as Hg.
  - destruct (truthy (local a k)) eqn:Ht.
    + split; [|by intros v [= <-]].
      split; [done|]. intros [E|[_ E]]; [|done]. by rewrite E in Ht.
    + split; [|done]. split; [|done]. intros _. by right.
  - destruct (local a k) eqn:El; cbn [defined].
    + split; [|done]. split; [|done]. intros _. by left.
    + split; [|by intros v [= <-]]. split; [done|]. by intros [|[]].
    + split; [|by intros v [= <-]]. split; [done|]. by intros [|[]].
    + split; [|by intros v [= <-]]. split; [done|]. by intros [|[]].
Qed.

Lemma input_sparse_policy_witness :
  "temperature"%string ∈ optional_keys
  ∧ (build_input (JsString.lit "u") (no_args (JsString.lit "a.wav"))
       !! "temperature"%string = None
     ↔ local (no_args (JsString.lit "a.wav")) "temperature" = JsUndefined
       ∨ ("temperature"%string ∈ truthiness_guarded
          ∧ truthy (local (no_args (JsString.lit "a.wav")) "temperature") = false))
  ∧ (∀ v, build_input (JsString.lit "u") (no_args (JsString.lit "a.wav"))
            !! "temperature"%string = Some v
          → v = local (no_args (JsString.lit "a.wav")) "temperature").
Proof.
  assert (Hk : "temperature"%string ∈ optional_keys).
  { unfold optional_keys. rewrite !elem_of_cons. tauto. }
  split; [exact Hk|].
  exact (input_sparse_policy (JsString.lit "u") (no_args (JsString.lit "a.wav"))
           "temperature" Hk).
Defined.

(** When the caller gives no optional argument, the bag carries the
    handler's own defaults. *)
Example build_input_no_args :
  build_input (JsString.lit "u") (no_args (JsString.lit "a.wav"))
  = {[ "audio_file"%string := JsString (JsString.lit "u");
       "language"%string := JsString (JsString.lit "en");
       "temperature"%string := JsNumber 0;
       "batch_size"%string := JsNumber 64;
       "vad_onset"%string := JsNumber 0.5;
       "vad_offset"%string := JsNumber 0.363;
       "align_output"%string := JsBoolean true;
       "diarization"%string := JsBoolean true;
       "debug"%string := JsBoolean false ]}.
Proof. vm_compute. reflexivity. Qed.

Section HandlerFacts.

Lemma bind_returns {A B} (m : Result A) (k : A → Result B) (a : A) :
  m = Returns a → (m ≫= k) = k a.
Proof. by intros ->. Qed.

Lemma bind_throws {A B} (m : Result A) (k : A → Result B) (e : Thrown) :
  m = Throws e → (m ≫= k) = Throws e.
Proof. by intros ->. Qed.

Lemma bind_returns_inv {A B} (m : Result A) (k : A → Result B) (b : B) :
  (m ≫= k) = Returns b → ∃ a, m = Returns a ∧ k a = Returns b.
Proof. destruct m as [a|e]; [by exists a|done]. Qed.

Lemma handler_of_body (w : World) (a : Args) :
  handler w a
  = match handler_body w a with
    | Returns resp => Returns resp
    | Throws error =>
        match error_message error with
        | Returns message => Returns (error_text message)
        | Throws fault => Throws fault
        end
    end.
Proof.
  unfold handler, try_catch. destruct (handler_body w a) as [resp|error]; [done|].
  by destruct (error_message error).
Qed.

(** A body that raises an [Error] made by the handler itself. *)
Lemma handler_of_thrown_error (w : World) (a : Args) (message : jsstring) :
  handler_body w a = throw_error message →
  handler w a = Returns (error_text message).
Proof. intros H. by rewrite handler_of_body, H. Qed.

Lemma ensure_bucket_listing (w : World) buckets message :
  listBuckets w = Returns (buckets, Some message) →
  ensure_bucket w
  = throw_error (JsString.lit "Failed to list buckets: " ++ message).
Proof. intros H. unfold ensure_bucket. by rewrite (bind_returns _ _ _ H). Qed.

Lemma ensure_bucket_creation (w : World) buckets message :
  listBuckets w = Returns (buckets, None) →
  bucket_missing buckets →
  createBucket w = Returns (Some message) →
  ensure_bucket w
  = throw_error (JsString.lit "Failed to create audio bucket: " ++ message).
Proof.
  intros H Hb Hc. unfold ensure_bucket. rewrite (bind_returns _ _ _ H).
  cbv beta iota. unfold bucket_missing in Hb.
  rewrite (bind_returns _ _ () eq_refl), Hb. cbn [negb].
  by rewrite (bind_returns _ _ _ Hc).
Qed.

Lemma upload_file_error (w : World) (a : Args) message :
  readFileSync w (audio_file a) = Returns () →
  upload w = Returns (Some message) →
  upload_file w a
  = throw_error (JsString.lit "Failed to upload file to Supabase: " ++ message).
Proof.
  intros Hr Hu. unfold upload_file.
  by rewrite (bind_returns _ _ _ Hr), (bind_returns _ _ _ Hu).
Qed.

Lemma transcribe_absent (w : World) (a : Args) url :
  replicate_run w (build_input url a) = Returns None →
  transcribe w a url
  = throw_error (JsString.lit "No output received from Replicate API").
Proof. intros H. unfold transcribe. by rewrite (bind_returns _ _ _ H). Qed.

Lemma persist_returns (w : World) (a : Args) (output : Output) resp :
  persist w a output = Returns resp →
  ∃ language segs text sents,
    writeFileSync w (transcriptPath w a) (TranscriptJson language segs) = Returns ()
    ∧ writeFileSync w (textPath w a) (TextFile text) = Returns ()
    ∧ writeFileSync w (sentencesPath w a) (SentencesJson sents) = Returns ()
    ∧ ∃ n m d, resp = Completed n m d (transcriptPath w a) (textPath w a)
                        (sentencesPath w a) (audioDir w).
Proof.
  unfold persist. intros H.
  apply bind_returns_inv in H as ([] & _ & H).
  apply bind_returns_inv in H as ([] & H1 & H).
  apply bind_returns_inv in H as (text & _ & H).
  apply bind_returns_inv in H as ([] & H2 & H).
  apply bind_returns_inv in H as (sents & _ & H).
  apply bind_returns_inv in H as ([] & H3 & H).
  injection H as <-. eauto 12.
Qed.

Lemma handler_body_returns (w : World) (a : Args) resp :
  handler_body w a = Returns resp →
  ∃ url output,
    ensure_bucket w = Returns ()
    ∧ upload_file w a = Returns url
    ∧ transcribe w a url = Returns output
    ∧ persist w a output = Returns resp.
Proof.
  unfold handler_body. intros H.
  apply bind_returns_inv in H as ([] & H1 & H).
  apply bind_returns_inv in H as (url & H2 & H).
  apply bind_returns_inv in H as (output & H3 & H).
  by exists url, output.
Qed.

(** Inside the handler the grouping code raises no [TypeError]. *)
Lemma sentence_timestamps_returns (output : Output) :
  ∃ sents, sentence_timestamps output = Returns sents.
Proof.
  unfold sentence_timestamps. destruct (segments output) as [segs|].
  - rewrite value_grouped. by eexists.
  - by eexists.
Qed.

End HandlerFacts.

Section CatchFacts.

(** The handler lets a fault out exactly when its body raises a value
    whose conversion in the [catch] block raises that fault. *)
Lemma handler_throws_iff (w : World) (a : Args) (fault : Thrown) :
  handler w a = Throws fault
  ↔ ∃ error, handler_body w a = Throws error ∧ error_message error = Throws fault.
Proof.
  rewrite handler_of_body. destruct (handler_body w a) as [resp|error].
  - split; [done|]. by intros (? & [=] & _).
  - destruct (error_message error) as [message|f] eqn:E.
    + split; [done|]. intros (e & [= <-] & H). by rewrite E in H.
    + split.
      * intros [= <-]. by exists error.
      * intros (e & [= <-] & H). rewrite E in H. by injection H as ->.
Qed.

Lemma handler_of_convertible (w : World) (a : Args) (error : Thrown)
    (message : jsstring) :
  handler_body w a = Throws error →
  error_message error = Returns message →
  handler w a = Returns (error_text message).
Proof. intros H E. by rewrite handler_of_body, H, E. Qed.

Lemma handler_body_persist (w : World) (a : Args) (output : Output) :
  reaches_writes w a output →
  handler_body w a = persist w a output.
Proof.
  intros (He & Hu & Ht & _). unfold handler_body.
  by rewrite (bind_returns _ _ _ He), (bind_returns _ _ _ Hu),
    (bind_returns _ _ _ Ht).
Qed.

Lemma persist_first_write (w : World) (a : Args) (output : Output) (e : Thrown) :
  mkdirSync w (audioDir w) = Returns () →
  writeFileSync w (transcriptPath w a)
    (TranscriptJson (detected output) (default [] (segments output))) = Throws e →
  persist w a output = Throws e.
Proof.
  intros Hm H1. unfold persist. rewrite (bind_returns _ _ _ Hm).
  by apply bind_throws.
Qed.

Lemma persist_second_write (w : World) (a : Args) (output : Output)
    (text : jsstring) (e : Thrown) :
  mkdirSync w (audioDir w) = Returns () →
  writeFileSync w (transcriptPath w a)
    (TranscriptJson (detected output) (default [] (segments output))) = Returns () →
  transcript_lines w (default [] (segments output)) (heading w output)
    = Returns text →
  writeFileSync w (textPath w a) (TextFile text) = Throws e →
  persist w a output = Throws e.
Proof.
  intros Hm H1 Ht H2. unfold persist.
  rewrite (bind_returns _ _ _ Hm), (bind_returns _ _ _ H1).
  cbv zeta. fold (detected output). fold (heading w output).
  rewrite (bind_returns _ _ _ Ht). by apply bind_throws.
Qed.

Lemma persist_third_write (w : World) (a : Args) (output : Output)
    (text : jsstring) (sents : list Sentence) (e : Thrown) :
  mkdirSync w (audioDir w) = Returns () →
  writeFileSync w (transcriptPath w a)
    (TranscriptJson (detected output) (default [] (segments output))) = Returns () →
  transcript_lines w (default [] (segments output)) (heading w output)
    = Returns text →
  writeFileSync w (textPath w a) (TextFile text) = Returns () →
  Eff.value (aggregate (segments output)) = Some sents →
  writeFileSync w (sentencesPath w a) (SentencesJson sents) = Throws e →
  persist w a output = Throws e.
Proof.
  intros Hm H1 Ht H2 Hs H3. unfold persist.
  rewrite (bind_returns _ _ _ Hm), (bind_returns _ _ _ H1).
  cbv zeta. fold (detected output). fold (heading w output).
  rewrite (bind_returns _ _ _ Ht), (bind_returns _ _ _ H2).
  unfold sentence_timestamps. rewrite Hs.
  rewrite (bind_returns _ _ sents eq_refl). by apply bind_throws.
Qed.

End CatchFacts.


(** X16: what the handler does with a failure.  A fault raised in its
    body becomes the text [Error transcribing audio: <message>] whenever
    the [catch] block can convert the thrown value to the string
    [<message>], and the handler lets a fault out only when that
    conversion raises it.  The failures that the handler raises itself
    (failed bucket listing, failed bucket creation, failed upload, absent
    inference result) always become their text; a failure of any of the
    three artifact writes becomes the text of the error the write
    raised. *)
Theorem handler_converts_failures :
  (∀ w a error message,
     handler_body w a = Throws error →
     error_message error = Returns message →
     handler w a = Returns (error_text message))
  ∧ (∀ w a fault,
       handler w a = Throws fault
       ↔ ∃ error, handler_body w a = Throws error
                  ∧ error_message error = Throws fault)
  ∧ (∀ w a buckets message,
       listBuckets w = Returns (buckets, Some message) →
       handler w a
       = Returns (error_text (JsString.lit "Failed to list buckets: " ++ message)))
  ∧ (∀ w a buckets message,
       listBuckets w = Returns (buckets, None) →
       bucket_missing buckets →
       createBucket w = Returns (Some message) →
       handler w a
       = Returns (error_text
                    (JsString.lit "Failed to create audio bucket: " ++ message)))
  ∧ (∀ w a message,
       ensure_bucket w = Returns () →
       readFileSync w (audio_file a) = Returns () →
       upload w = Returns (Some message) →
       handler w a
       = Returns (error_text
                    (JsString.lit "Failed to upload file to Supabase: " ++ message)))
  ∧ (∀ w a url,
       ensure_bucket w = Returns () →
       upload_file w a = Returns url →
       replicate_run w (build_input url a) = Returns None →
       handler w a
       = Returns (error_text (JsString.lit "No output received from Replicate API")))
  ∧ (∀ w a output e message,
       reaches_writes w a output →
       writeFileSync w (transcriptPath w a)
         (TranscriptJson (detected output) (default [] (segments output)))
       = Throws e →
       error_message e = Returns message →
       handler w a = Returns (error_text message))
  ∧ (∀ w a output text e message,
       reaches_writes w a output →
       writeFileSync w (transcriptPath w a)
         (TranscriptJson (detected output) (default [] (segments output)))
       = Returns () →
       transcript_lines w (default [] (segments output)) (heading w output)
       = Returns text →
       writeFileSync w (textPath w a) (TextFile text) = Throws e →
       error_message e = Returns message →
       handler w a = Returns (error_text message))
  ∧ (∀ w a output text sents e message,
       reaches_writes w a output →
       writeFileSync w (transcriptPath w a)
         (TranscriptJson (detected output) (default [] (segments output)))
       = Returns () →
       transcript_lines w (default [] (segments output)) (heading w output)
       = Returns text →
       writeFileSync w (textPath w a) (TextFile text) = Returns () →
       Eff.value (aggregate (segments output)) = Some sents →
       writeFileSync w (sentencesPath w a) (SentencesJson sents) = Throws e →
       error_message e = Returns message →
       handler w a = Returns (error_text message)).
Proof.
  split; [exact handler_of_convertible|].
  split; [exact handler_throws_iff|].
  repeat split.
  - intros w a buckets message H. apply handler_of_thrown_error.
    unfold handler_body. apply bind_throws. by eapply ensure_bucket_listing.
  - intros w a buckets message H Hb Hc. apply handler_of_thrown_error.
    unfold handler_body. apply bind_throws. by eapply ensure_bucket_creation.
  - intros w a message He Hr Hu. apply handler_of_thrown_error.
    unfold handler_body. rewrite (bind_returns _ _ _ He).
    apply bind_throws. by apply upload_file_error.
  - intros w a url He Hu Hr. apply handler_of_thrown_error.
    unfold handler_body. rewrite (bind_returns _ _ _ He), (bind_returns _ _ _ Hu).
    apply bind_throws. by apply transcribe_absent.
  - intros w a output e message Hr H1 Hm.
    apply (handler_of_convertible w a e message); [|exact Hm].
    rewrite (handler_body_persist w a output Hr).
    destruct Hr as (_ & _ & _ & Hd). by apply persist_first_write.
  - intros w a output text e message Hr H1 Ht H2 Hm.
    apply (handler_of_convertible w a e message); [|exact Hm].
    rewrite (handler_body_persist w a output Hr).
    destruct Hr as (_ & _ & _ & Hd). by eapply persist_second_write.
  - intros w a output text sents e message Hr H1 Ht H2 Hs H3 Hm.
    apply (handler_of_convertible w a e message); [|exact Hm].
    rewrite (handler_body_persist w a output Hr).
    destruct Hr as (_ & _ & _ & Hd). by eapply persist_third_write.
Qed.

Lemma handler_converts_failures_witness :
  reaches_writes world_write_fails (no_args (JsString.lit "a.wav"))
    (mkOutput (Some (JsString.lit "en"))
       (Some [seg 0 1 "Hello"; seg 1 2 " world."]))
  ∧ handler world_write_fails (no_args (JsString.lit "a.wav"))
    = Returns (error_text (JsString.lit "EACCES: permission denied")).
Proof.
  assert (Hr : reaches_writes world_write_fails (no_args (JsString.lit "a.wav"))
                 (mkOutput (Some (JsString.lit "en"))
                    (Some [seg 0 1 "Hello"; seg 1 2 " world."]))).
  { repeat split; vm_compute; reflexivity. }
  split; [exact Hr|].
  exact (proj1 (proj2 (proj2 (proj2 (proj2 (proj2 (proj2 handler_converts_failures))))))
           world_write_fails (no_args (JsString.lit "a.wav")) _
           (new_error (JsString.lit "EACCES: permission denied"))
           (JsString.lit "EACCES: permission denied") Hr eq_refl eq_refl).
Defined.

(** * Further properties of the grouping code *)

Section TrimFacts.

Import JsString.

Lemma trimStart_app_mark (pre : jsstring) (c : N) (ws : jsstring) :
  is_space c = false →
  trimStart (pre ++ c :: ws) = trimStart pre ++ c :: ws.
Proof.
  intros Hc. induction pre as [|d pre IH]; simpl.
  - by rewrite Hc.
  - destruct (is_space d); [exact IH|done].
Qed.

Lemma trimStart_space_app (l y : jsstring) :
  forallb is_space l = true → trimStart (l ++ y) = trimStart y.
Proof.
  induction l as [|d l IH]; simpl; [done|].
  intros [Hd Hl]%andb_true_iff. rewrite Hd. by apply IH.
Qed.

Lemma trimEnd_app_mark (x : jsstring) (c : N) (ws : jsstring) :
  is_space c = false → forallb is_space ws = true →
  trimEnd (x ++ c :: ws) = x ++ [c].
Proof.
  intros Hc Hws. unfold trimEnd.
  rewrite rev_app_distr. simpl. rewrite <- app_assoc. simpl.
  rewrite trimStart_space_app by (by rewrite forallb_rev).
  simpl. rewrite Hc. simpl. by rewrite rev_involutive.
Qed.

(** The trimmed form of a text whose last non-blank code unit is [c]. *)
Lemma trim_app_mark (pre : jsstring) (c : N) (ws : jsstring) :
  is_space c = false → forallb is_space ws = true →
  trim (pre ++ c :: ws) = trimStart pre ++ [c].
Proof.
  intros Hc Hws. unfold trim.
  rewrite (trimStart_app_mark _ _ _ Hc). by apply trimEnd_app_mark.
Qed.

Lemma trimStart_fixed (s : jsstring) :
  (∀ c r, s = c :: r → is_space c = false) → trimStart s = s.
Proof.
  destruct s as [|c r]; [done|]. intros H. simpl.
  by rewrite (H c r eq_refl).
Qed.

Lemma trim_idempotent (s : jsstring) : trim (trim s) = trim s.
Proof.
  destruct (trim s) as [|d y] eqn:E using rev_ind; [done|].
  clear IHy. pose proof (trim_last _ _ _ E) as Hd.
  change (y ++ [d]) with (y ++ d :: []).
  rewrite (trim_app_mark y d [] Hd eq_refl). f_equal.
  apply trimStart_fixed. intros c r ->. by apply (trim_head s c (r ++ [d])).
Qed.

(** A test that passes on a trimmed text found its mark at the end. *)
Lemma test_trim_last (t : jsstring) :
  Pattern.test (trim t) = true → ends_in_mark (trim t).
Proof.
  intros (pre & c & ws & E & Hc & Hws)%test_spec.
  destruct ws as [|d ws _] using rev_ind.
  - exists pre, c. split; [done|]. by apply is_terminal_marks.
  - exfalso. rewrite forallb_app in Hws. simpl in Hws.
    apply andb_true_iff in Hws as [_ Hd]. rewrite andb_true_r in Hd.
    assert (E' : trim t = (pre ++ c :: ws) ++ [d]).
    { rewrite E, <- app_assoc. done. }
    apply trim_last in E'. congruence.
Qed.

End TrimFacts.

(** X1: the punctuation test of the loop, made on the trimmed text of a
    segment, passes exactly when the last code unit of that trimmed text
    is [.], [!] or [?]: after [trim] the [[\s]*] of the pattern has
    nothing left to match. *)
Theorem closes_iff_last_mark (s : Segment) :
  closes s = true ↔ ends_in_mark (JsString.trim (seg_text s)).
Proof.
  unfold closes. split; [apply test_trim_last|].
  intros (pre & c & E & Hc). apply test_spec.
  exists pre, c, []. split; [exact E|]. split; [|done].
  by apply is_terminal_marks.
Qed.

(** X2: the pattern gives the same answer on a text and on its trimmed
    form: it skips trailing white space itself, and leading white space
    cannot hide a match. *)
Theorem pattern_test_invariant_under_trim (t : jsstring) :
  Pattern.test (JsString.trim t) = Pattern.test t.
Proof.
  apply eq_true_iff_eq. rewrite !test_spec. split.
  - intros (pre & c & ws & E & Hc & Hws).
    destruct (trim_split t) as (l & r & Ht & Hl & Hr).
    exists (l ++ pre), c, (ws ++ r). split; [|split; [done|]].
    + rewrite Ht, E, <- !app_assoc. done.
    + by rewrite forallb_app, Hws, Hr.
  - intros (pre & c & ws & -> & Hc & Hws).
    exists (JsString.trimStart pre), c, []. split; [|by split].
    apply trim_app_mark; [|done]. by apply is_terminal_not_space.
Qed.

Section SentenceFacts.

Import JsString.

Lemma group_trimmed (segs : list Segment) :
  ∀ acc start,
    Forall (λ sent, ∃ x, sentence sent = trim x) (group acc start segs).
Proof.
  induction segs as [|s rest IH]; intros acc start; [constructor|].
  cbn [group]. destruct (closes s || is_last rest); [|apply IH].
  constructor; [by eexists|]. destruct rest; [constructor|apply IH].
Qed.

Lemma group_nonempty (segs : list Segment) (acc : jsstring) (start : float) :
  segs ≠ [] → group acc start segs ≠ [].
Proof.
  intros Hne E. destruct (group_head segs acc start Hne) as (sent & Hh & _).
  by rewrite E in Hh.
Qed.

(** The sentence closed by a segment that passes the test ends in its mark. *)
Lemma closing_sentence_mark (acc : jsstring) (s : Segment) :
  closes s = true → ends_in_mark (trim (acc ++ seg_text s)).
Proof.
  intros (pre & c & E & Hc)%test_trim_last.
  destruct (trim_split (seg_text s)) as (l & r & Ht & Hl & Hr).
  rewrite Ht, E.
  replace (acc ++ l ++ (pre ++ [c]) ++ r) with ((acc ++ l ++ pre) ++ c :: r)
    by (by rewrite <- !app_assoc).
  rewrite trim_app_mark; [by eexists _, c| |done].
  by apply is_terminal_not_space, is_terminal_marks.
Qed.

Lemma group_marks (segs : list Segment) :
  ∀ acc start front final,
    group acc start segs = front ++ [final] →
    Forall (λ sent, ends_in_mark (sentence sent)) front.
Proof.
  induction segs as [|s rest IH]; intros acc start front final E.
  - by destruct front.
  - cbn [group] in E. destruct rest as [|next rest].
    + cbn [is_last] in E. rewrite orb_true_r in E.
      destruct front as [|x [|y front]]; [constructor|done|done].
    + cbn [is_last] in E. rewrite orb_false_r in E.
      destruct (closes s) eqn:Hc; [|exact (IH _ _ _ _ E)].
      destruct front as [|x front].
      * exfalso. injection E as _ E.
        by apply (group_nonempty (next :: rest) [] (seg_start next)).
      * injection E as <- E.
        change (group [] (seg_start next) (next :: rest) = front ++ [final]) in E.
        constructor; [|exact (IH _ _ _ _ E)].
        by apply closing_sentence_mark.
Qed.

Lemma group_cuts (segs : list Segment) :
  ∀ acc start,
    segs ≠ [] →
    length (group acc start segs)
    = S (length (filter (λ s, closes s = true) (removelast segs))).
Proof.
  induction segs as [|s rest IH]; intros acc start Hne; [done|].
  cbn [group]. destruct rest as [|next rest].
  - cbn [is_last]. by rewrite orb_true_r.
  - cbn [is_last]. rewrite orb_false_r.
    change (removelast (s :: next :: rest)) with (s :: removelast (next :: rest)).
    destruct (closes s) eqn:Hc.
    + rewrite filter_cons_True by done. cbn [length]. by rewrite IH.
    + rewrite filter_cons_False by (by rewrite Hc). by apply IH.
Qed.

Lemma group_app_boundary (a : list Segment) :
  ∀ acc start s next b,
    closes s = true →
    group acc start (a ++ s :: next :: b)
    = group acc start (a ++ [s]) ++ group [] (seg_start next) (next :: b).
Proof.
  induction a as [|x a IH]; intros acc start s next b Hs.
  - cbn [app group is_last]. by rewrite Hs.
  - cbn [app group].
    replace (is_last (a ++ s :: next :: b)) with false by (by destruct a).
    replace (is_last (a ++ [s])) with false by (by destruct a).
    rewrite !orb_false_r. destruct (closes x); [|by apply IH].
    cbn [app]. f_equal.
    destruct a as [|y a]; cbn [app]; [apply (IH _ _ _ _ _ Hs)|].
    apply (IH _ _ _ _ _ Hs).
Qed.

Lemma group_each (segs : list Segment) :
  ∀ first rest, segs = first :: rest →
    Forall (λ s, closes s = true) segs →
    group [] (seg_start first) segs = map segment_sentence segs.
Proof.
  induction segs as [|s segs IH]; intros first rest E Hall; [done|].
  injection E as <- <-. apply Forall_cons in Hall as [Hs Hall].
  cbn [group map]. rewrite Hs. cbn [orb]. f_equal.
  destruct segs as [|next segs]; [done|]. by eapply IH.
Qed.

End SentenceFacts.

(** X3: every emitted sentence text is trimmed: trimming it again changes
    nothing, and neither its first nor its last code unit is white space. *)
Theorem aggregate_sentences_trimmed (segs : list Segment) :
  ∃ out,
    Eff.value (aggregate (Some segs)) = Some out
    ∧ Forall (λ sent,
                JsString.trim (sentence sent) = sentence sent
                ∧ (∀ c, head (sentence sent) = Some c → JsString.is_space c = false)
                ∧ (∀ c, last (sentence sent) = Some c → JsString.is_space c = false))
             out.
Proof.
  exists (grouped segs). split; [apply value_grouped|].
  assert (H : Forall (λ sent, ∃ x, sentence sent = JsString.trim x) (grouped segs)).
  { destruct segs as [|first segs]; [constructor|apply group_trimmed]. }
  eapply Forall_impl; [exact H|]. cbn. intros sent [x Hx].
  rewrite Hx. split; [apply trim_idempotent|]. split.
  - intros c Hc. destruct (JsString.trim x) as [|d r] eqn:E; [done|].
    injection Hc as ->. by apply (trim_head x c r).
  - intros c [pre Hc]%last_Some. by apply (trim_last x pre c).
Qed.

(** X4: every emitted sentence except the last one ends in [.], [!] or
    [?]; only the sentence flushed at the end of the input can lack a
    terminal mark or be empty. *)
Theorem aggregate_inner_sentences_end_in_mark
    (segs : list Segment) (front : list Sentence) (final : Sentence) :
  Eff.value (aggregate (Some segs)) = Some (front ++ [final]) →
  Forall (λ sent, ends_in_mark (sentence sent)) front.
Proof.
  rewrite value_grouped. intros [= E]. destruct segs as [|first segs].
  - by destruct front.
  - by apply (group_marks (first :: segs) [] (seg_start first) front final).
Qed.

Lemma aggregate_inner_sentences_end_in_mark_witness :
  Eff.value (aggregate (Some [seg 0 1 "One."; seg 1 2 "Two"; seg 2 3 " three"]))
  = Some ([mkSentence (JsString.lit "One.") 0 1 1]
            ++ [mkSentence (JsString.lit "Two three") 1 3 2])
  ∧ Forall (λ sent, ends_in_mark (sentence sent))
           [mkSentence (JsString.lit "One.") 0 1 1].
Proof.
  assert (H : Eff.value (aggregate (Some [seg 0 1 "One."; seg 1 2 "Two";
                                          seg 2 3 " three"]))
              = Some ([mkSentence (JsString.lit "One.") 0 1 1]
                        ++ [mkSentence (JsString.lit "Two three") 1 3 2])).
  { vm_compute. reflexivity. }
  split; [exact H|].
  exact (aggregate_inner_sentences_end_in_mark _ _ _ H).
Defined.

(** X5: on a non-empty input the number of sentences is one more than
    the number of segments, the last one excluded, that pass the
    punctuation test. *)
Theorem aggregate_exact_count (segs : list Segment) :
  segs ≠ [] →
  ∃ out,
    Eff.value (aggregate (Some segs)) = Some out
    ∧ length out = S (length (filter (λ s, closes s = true) (removelast segs))).
Proof.
  intros Hne. exists (grouped segs). split; [apply value_grouped|].
  destruct segs as [|first segs]; [done|]. by apply group_cuts.
Qed.

Lemma aggregate_exact_count_witness :
  [seg 0 1 "One."; seg 1 2 "Two!"; seg 2 3 "three"; seg 3 4 "four."] ≠ []
  ∧ ∃ out,
      Eff.value (aggregate (Some [seg 0 1 "One."; seg 1 2 "Two!";
                                  seg 2 3 "three"; seg 3 4 "four."])) = Some out
      ∧ length out
        = S (length (filter (λ s, closes s = true)
                       (removelast [seg 0 1 "One."; seg 1 2 "Two!";
                                    seg 2 3 "three"; seg 3 4 "four."]))).
Proof.
  split; [discriminate|].
  apply (aggregate_exact_count [seg 0 1 "One."; seg 1 2 "Two!";
                                seg 2 3 "three"; seg 3 4 "four."]).
  discriminate.
Defined.

(** X6: grouping composes at a sentence boundary: when the segment [s]
    passes the punctuation test, the sentences of an input cut after [s]
    are those of the part up to [s] followed by those of the part after
    it. *)
Theorem aggregate_app_boundary (a : list Segment) (s : Segment) (b : list Segment) :
  closes s = true →
  ∃ out1 out2,
    Eff.value (aggregate (Some (a ++ [s]))) = Some out1
    ∧ Eff.value (aggregate (Some b)) = Some out2
    ∧ Eff.value (aggregate (Some (a ++ s :: b))) = Some (out1 ++ out2).
Proof.
  intros Hs. exists (grouped (a ++ [s])), (grouped b).
  rewrite !value_grouped. split; [done|]. split; [done|]. f_equal.
  destruct b as [|next b]; [by rewrite app_nil_r|].
  unfold grouped at 1 2.
  destruct a as [|first a]; cbn [app].
  - apply (group_app_boundary [] _ _ _ _ _ Hs).
  - apply (group_app_boundary (first :: a) _ _ _ _ _ Hs).
Qed.

Lemma aggregate_app_boundary_witness :
  closes (seg 1 2 " world.") = true
  ∧ ∃ out1 out2,
      Eff.value (aggregate (Some ([seg 0 1 "Hello"] ++ [seg 1 2 " world."])))
        = Some out1
      ∧ Eff.value (aggregate (Some [seg 2 3 "Bye"])) = Some out2
      ∧ Eff.value (aggregate (Some ([seg 0 1 "Hello"] ++ seg 1 2 " world."
                                     :: [seg 2 3 "Bye"])))
        = Some (out1 ++ out2).
Proof.
  split; [vm_compute; reflexivity|].
  apply (aggregate_app_boundary [seg 0 1 "Hello"] (seg 1 2 " world.")
           [seg 2 3 "Bye"]).
  vm_compute. reflexivity.
Defined.

(** X7: when no segment before the last one passes the punctuation test,
    the whole input becomes a single sentence: the trimmed concatenation
    of all texts, from the start of the first segment to the end of the
    last. *)
Theorem aggregate_single_sentence (init : list Segment) (s : Segment) :
  Forall (λ x, closes x = false) init →
  Eff.value (aggregate (Some (init ++ [s]))) = Some [run_sentence (mkRun init s)].
Proof.
  intros Hinit. rewrite value_grouped. f_equal.
  destruct (grouped_runs (init ++ [s])) as [-> _].
  rewrite split_runs_cut; [done| |apply orb_true_r].
  eapply Forall_impl; [exact Hinit|]. intros x. apply closes_false_spec.
Qed.

Lemma aggregate_single_sentence_witness :
  Forall (λ x, closes x = false) [seg 0 1 "Hi"; seg 1 2 " the"]
  ∧ Eff.value (aggregate (Some ([seg 0 1 "Hi"; seg 1 2 " the"] ++ [seg 2 3 "re"])))
    = Some [run_sentence (mkRun [seg 0 1 "Hi"; seg 1 2 " the"] (seg 2 3 "re"))].
Proof.
  assert (H : Forall (λ x, closes x = false) [seg 0 1 "Hi"; seg 1 2 " the"]).
  { repeat constructor. }
  split; [exact H|].
  exact (aggregate_single_sentence [seg 0 1 "Hi"; seg 1 2 " the"] (seg 2 3 "re") H).
Defined.

(** X8: when every segment passes the punctuation test, there is one
    sentence per segment, with the trimmed text and the times of that
    segment. *)
Theorem aggregate_sentence_per_segment (segs : list Segment) :
  Forall (λ s, closes s = true) segs →
  Eff.value (aggregate (Some segs)) = Some (map segment_sentence segs).
Proof.
  intros Hall. rewrite value_grouped. f_equal.
  destruct segs as [|first segs]; [done|].
  by apply (group_each (first :: segs) first segs).
Qed.

Lemma aggregate_sentence_per_segment_witness :
  Forall (λ s, closes s = true) [seg 0 1 " One. "; seg 1 2 "Two?"]
  ∧ Eff.value (aggregate (Some [seg 0 1 " One. "; seg 1 2 "Two?"]))
    = Some (map segment_sentence [seg 0 1 " One. "; seg 1 2 "Two?"]).
Proof.
  assert (H : Forall (λ s, closes s = true) [seg 0 1 " One. "; seg 1 2 "Two?"]).
  { repeat constructor. }
  split; [exact H|].
  exact (aggregate_sentence_per_segment [seg 0 1 " One. "; seg 1 2 "Two?"] H).
Defined.

(** * Further properties of the parameter bag *)

Section BagFacts.

Lemma elem_of_optional_keys (k : string) :
  k ∈ always_forwarded → k ∈ optional_keys.
Proof.
  unfold always_forwarded, optional_keys.
  rewrite !elem_of_cons, !elem_of_nil. tauto.
Qed.

End BagFacts.

(** X9: the bag always carries [audio_file], bound to the public URL of
    the upload, and never a key other than [audio_file] and the fourteen
    optional parameters; [filename] in particular is never forwarded. *)
Theorem build_input_keys (publicUrl : jsstring) (a : Args) :
  build_input publicUrl a !! "audio_file"%string = Some (JsString publicUrl)
  ∧ (∀ k, k ∉ "audio_file"%string :: optional_keys →
          build_input publicUrl a !! k = None)
  ∧ build_input publicUrl a !! "filename"%string = None.
Proof.
  assert (Hout : ∀ k, k ∉ "audio_file"%string :: optional_keys →
                      build_input publicUrl a !! k = None).
  { intros k Hk. unfold optional_keys in Hk.
    rewrite !not_elem_of_cons in Hk. destruct_and!.
    unfold build_input. cbv zeta. rewrite !lookup_assign_if.
    rewrite !bool_decide_eq_false_2 by congruence.
    rewrite !andb_false_r. by apply lookup_singleton_ne. }
  split; [|split; [exact Hout|]].
  - unfold build_input. cbv zeta. rewrite !lookup_assign_if.
    rewrite !bool_decide_eq_false_2 by discriminate.
    rewrite !andb_false_r. apply lookup_singleton_eq.
  - apply Hout. unfold optional_keys.
    rewrite !not_elem_of_cons, elem_of_nil. repeat split; (discriminate || tauto).
Qed.

(** X10: the seven parameters with a handler default and an
    [!== undefined] guard are in the bag on every call, with the caller's
    value or else the handler's default: for them a provider-side default
    never applies. *)
Theorem build_input_defaults (publicUrl : jsstring) (a : Args) :
  let input := build_input publicUrl a in
  input !! "temperature"%string = Some (JsNumber (default 0%float (temperature a)))
  ∧ input !! "batch_size"%string = Some (JsNumber (default 64%float (batch_size a)))
  ∧ input !! "vad_onset"%string = Some (JsNumber (default 0.5%float (vad_onset a)))
  ∧ input !! "vad_offset"%string = Some (JsNumber (default 0.363%float (vad_offset a)))
  ∧ input !! "align_output"%string = Some (JsBoolean (default true (align_output a)))
  ∧ input !! "diarization"%string = Some (JsBoolean (default true (diarization a)))
  ∧ input !! "debug"%string = Some (JsBoolean (default false (debug a))).
Proof.
  cbv zeta.
  repeat split;
    (rewrite build_input_lookup
       by (apply elem_of_optional_keys; unfold always_forwarded;
           rewrite !elem_of_cons; tauto));
    unfold local, guard.
  - by destruct (temperature a).
  - by destruct (batch_size a).
  - by destruct (vad_onset a).
  - by destruct (vad_offset a).
  - by destruct (align_output a).
  - by destruct (diarization a).
  - by destruct (debug a).
Qed.

(** X11: the [language] key holds ["en"] when the caller gives no
    language, is left out when the caller gives the empty string, and
    holds the caller's language otherwise. *)
Theorem build_input_language (publicUrl : jsstring) (a : Args) :
  build_input publicUrl a !! "language"%string
  = match language a with
    | None => Some (JsString (JsString.lit "en"))
    | Some [] => None
    | Some (c :: s) => Some (JsString (c :: s))
    end.
Proof.
  rewrite build_input_lookup
    by (unfold optional_keys; rewrite !elem_of_cons; tauto).
  unfold local, guard. by destruct (language a) as [[|c s]|].
Qed.

(** * Further properties of the handler *)

Section StageFacts.

Lemma upload_file_returns (w : World) (a : Args) (url : jsstring) :
  upload_file w a = Returns url →
  readFileSync w (audio_file a) = Returns ()
  ∧ upload w = Returns None
  ∧ url = publicUrl w.
Proof.
  unfold upload_file. intros H.
  apply bind_returns_inv in H as ([] & Hr & H).
  apply bind_returns_inv in H as (err & Hu & H).
  destruct err as [message|]; [done|].
  apply bind_returns_inv in H as ([] & _ & H). by injection H as <-.
Qed.

Lemma transcribe_returns (w : World) (a : Args) (url : jsstring) (output : Output) :
  transcribe w a url = Returns output →
  replicate_run w (build_input url a) = Returns (Some output).
Proof.
  unfold transcribe. intros H.
  apply bind_returns_inv in H as (o & Hr & H).
  destruct o as [o|]; [|done]. by injection H as <-.
Qed.

Lemma transcript_lines_ok (w : World) (segs : list Segment) :
  ∀ text, stamps_ok w segs →
    transcript_lines w segs text
    = Returns (text ++ concat (map (transcript_block w) segs)).
Proof.
  induction segs as [|s segs IH]; intros text Hok.
  - cbn. by rewrite app_nil_r.
  - apply Forall_cons in Hok as [[[t1 H1] [t2 H2]] Hok].
    cbn [transcript_lines map concat].
    rewrite (bind_returns _ _ _ H1), (bind_returns _ _ _ H2).
    rewrite (IH _ Hok). unfold transcript_block, stamp. rewrite H1, H2.
    by rewrite <- !app_assoc.
Qed.

Lemma transcript_lines_returns (w : World) (segs : list Segment) :
  ∀ text text', transcript_lines w segs text = Returns text' → stamps_ok w segs.
Proof.
  induction segs as [|s segs IH]; intros text text' H; [constructor|].
  cbn [transcript_lines] in H.
  apply bind_returns_inv in H as (t1 & H1 & H).
  apply bind_returns_inv in H as (t2 & H2 & H).
  constructor; [by split; eexists|]. by eapply IH.
Qed.

Lemma sentence_timestamps_value (output : Output) (sents : list Sentence) :
  sentence_timestamps output = Returns sents →
  Eff.value (aggregate (segments output)) = Some sents.
Proof.
  unfold sentence_timestamps.
  destruct (Eff.value (aggregate (segments output))); [by intros [= ->]|done].
Qed.

Lemma value_absent_or_grouped (o : option (list Segment)) :
  Eff.value (aggregate o) = Some (grouped (default [] o)).
Proof. destruct o as [segs|]; [apply value_grouped|done]. Qed.

Lemma persist_completed (w : World) (a : Args) (output : Output) resp :
  persist w a output = Returns resp →
  resp = Completed (length (default [] (segments output)))
           (length (grouped (default [] (segments output))))
           (summary_duration (default [] (segments output)))
           (transcriptPath w a) (textPath w a) (sentencesPath w a) (audioDir w).
Proof.
  unfold persist. intros H.
  apply bind_returns_inv in H as ([] & _ & H).
  apply bind_returns_inv in H as ([] & _ & H).
  apply bind_returns_inv in H as (text & _ & H).
  apply bind_returns_inv in H as ([] & _ & H).
  apply bind_returns_inv in H as (sents & Hs & H).
  apply bind_returns_inv in H as ([] & _ & H).
  apply sentence_timestamps_value in Hs.
  rewrite value_absent_or_grouped in Hs. injection Hs as <-.
  by injection H as <-.
Qed.

End StageFacts.

(** X12: the bucket stage succeeds exactly when the listing answers
    without error and either lists the [audio] bucket or is followed by
    a creation that answers without error; when the bucket is listed,
    what a creation would answer does not matter. *)
Theorem ensure_bucket_returns_iff (w : World) :
  ensure_bucket w = Returns ()
  ↔ ∃ buckets,
      listBuckets w = Returns (buckets, None)
      ∧ (¬ bucket_missing buckets ∨ createBucket w = Returns None).
Proof.
  unfold bucket_missing. split.
  - unfold ensure_bucket. intros H.
    apply bind_returns_inv in H as ([buckets err] & Hl & H).
    destruct err as [message|].
    { apply bind_returns_inv in H as (? & [=] & _). }
    apply bind_returns_inv in H as ([] & _ & H).
    exists buckets. split; [exact Hl|].
    destruct (default false _) eqn:Hb; [by left|right].
    cbn [negb] in H. apply bind_returns_inv in H as (err & Hc & H).
    by destruct err.
  - intros (buckets & Hl & Hc). unfold ensure_bucket.
    rewrite (bind_returns _ _ _ Hl). cbv beta iota.
    rewrite (bind_returns _ _ () eq_refl).
    destruct (default false _) eqn:Hb; [done|]. cbn [negb].
    destruct Hc as [Hc|Hc]; [done|]. by rewrite (bind_returns _ _ _ Hc).
Qed.

(** X13: the readable transcript is made exactly when the clock string of
    every segment start and end can be made (an invalid time raises); it
    then is the given heading followed by one block per segment, in
    order, each with the trimmed text of its segment. *)
Theorem transcript_lines_returns_iff (w : World) (segs : list Segment)
    (text : jsstring) :
  ((∃ text', transcript_lines w segs text = Returns text') ↔ stamps_ok w segs)
  ∧ (stamps_ok w segs →
     transcript_lines w segs text
     = Returns (text ++ concat (map (transcript_block w) segs))).
Proof.
  split; [|apply transcript_lines_ok]. split.
  - intros [text' H]. by eapply transcript_lines_returns.
  - intros H. eexists. by apply transcript_lines_ok.
Qed.

Lemma transcript_lines_returns_iff_witness :
  stamps_ok world_ok [seg 0 1 " Hi. "]
  ∧ transcript_lines world_ok [seg 0 1 " Hi. "] (JsString.lit "T:")
    = Returns (JsString.lit "T:"
                 ++ concat (map (transcript_block world_ok) [seg 0 1 " Hi. "])).
Proof.
  assert (H : stamps_ok world_ok [seg 0 1 " Hi. "]).
  { repeat constructor; by eexists. }
  split; [exact H|].
  exact (proj2 (transcript_lines_returns_iff world_ok [seg 0 1 " Hi. "]
                  (JsString.lit "T:")) H).
Defined.

(** X14: when the bucket stage, the file read, the upload, the directory
    creation and the writes succeed, the inference returns a result and
    the clock strings can be made, the handler returns the success
    summary: the number of segments, the number of sentences that the
    grouping code makes of them, the end of the last segment (or 0) and
    the three paths. *)
Theorem handler_completes (w : World) (a : Args) (output : Output) :
  ensure_bucket w = Returns () →
  readFileSync w (audio_file a) = Returns () →
  upload w = Returns None →
  replicate_run w (build_input (publicUrl w) a) = Returns (Some output) →
  mkdirSync w (audioDir w) = Returns () →
  (∀ path content, writeFileSync w path content = Returns ()) →
  stamps_ok w (default [] (segments output)) →
  ∃ sents,
    Eff.value (aggregate (segments output)) = Some sents
    ∧ handler w a
      = Returns (Completed (length (default [] (segments output)))
                   (length sents)
                   (summary_duration (default [] (segments output)))
                   (transcriptPath w a) (textPath w a) (sentencesPath w a)
                   (audioDir w)).
Proof.
  intros He Hr Hu Hi Hm Hw Hc.
  exists (grouped (default [] (segments output))).
  split; [apply value_absent_or_grouped|].
  rewrite handler_of_body. unfold handler_body.
  rewrite (bind_returns _ _ _ He).
  unfold upload_file. rewrite (bind_returns _ _ _ Hr), (bind_returns _ _ _ Hu).
  cbn [mbind result_bind mret result_ret].
  unfold transcribe. rewrite (bind_returns _ _ _ Hi).
  cbn [mbind result_bind mret result_ret].
  unfold persist. rewrite (bind_returns _ _ _ Hm), (bind_returns _ _ _ (Hw _ _)).
  rewrite (transcript_lines_ok _ _ _ Hc).
  cbn [mbind result_bind]. rewrite (Hw _ _).
  unfold sentence_timestamps. rewrite value_absent_or_grouped.
  cbn [mbind result_bind mret result_ret]. by rewrite (Hw _ _).
Qed.

Lemma handler_completes_witness :
  ∃ sents,
    Eff.value (aggregate (Some [seg 0 1 "Hello"; seg 1 2 " world."])) = Some sents
    ∧ handler world_ok (no_args (JsString.lit "a.wav"))
      = Returns (Completed 2 (length sents) 2
                   (transcriptPath world_ok (no_args (JsString.lit "a.wav")))
                   (textPath world_ok (no_args (JsString.lit "a.wav")))
                   (sentencesPath world_ok (no_args (JsString.lit "a.wav")))
                   (audioDir world_ok)).
Proof.
  apply (handler_completes world_ok (no_args (JsString.lit "a.wav"))
           (mkOutput (Some (JsString.lit "en"))
              (Some [seg 0 1 "Hello"; seg 1 2 " world."]))).
  - reflexivity.
  - reflexivity.
  - reflexivity.
  - reflexivity.
  - reflexivity.
  - reflexivity.
  - repeat constructor; by eexists.
Defined.

(** X15: a success summary is consistent with the inference result: the
    inference was given the bag built for the public URL and returned a
    result, the summary counts its segments, reports no more sentences
    than segments and none only when there is no segment, and names the
    three paths derived from the base file name. *)
Theorem handler_summary_consistent (w : World) (a : Args)
    (n m : nat) (d : float) (p1 p2 p3 dir : jsstring) :
  handler w a = Returns (Completed n m d p1 p2 p3 dir) →
  ∃ output sents,
    replicate_run w (build_input (publicUrl w) a) = Returns (Some output)
    ∧ Eff.value (aggregate (segments output)) = Some sents
    ∧ n = length (default [] (segments output))
    ∧ m = length sents
    ∧ m ≤ n ∧ (m = 0 ↔ n = 0)
    ∧ d = summary_duration (default [] (segments output))
    ∧ p1 = transcriptPath w a ∧ p2 = textPath w a ∧ p3 = sentencesPath w a
    ∧ dir = audioDir w.
Proof.
  rewrite handler_of_body.
  destruct (handler_body w a) as [resp|e] eqn:Hb;
    [|by destruct (error_message e)]. intros [= ->].
  apply handler_body_returns in Hb as (url & output & _ & Hu & Ht & Hp).
  apply upload_file_returns in Hu as (_ & _ & ->).
  apply transcribe_returns in Ht. apply persist_completed in Hp.
  injection Hp as -> -> -> -> -> -> ->.
  exists output, (grouped (default [] (segments output))).
  split; [exact Ht|]. split; [apply value_absent_or_grouped|].
  split; [done|]. split; [done|].
  destruct (default [] (segments output)) as [|first segs] eqn:E.
  - repeat split; done.
  - split; [apply group_length|]. split; [|repeat split; done].
    split; [|done]. intros H0. exfalso.
    apply (group_nonempty (first :: segs) [] (seg_start first)); [done|].
    unfold grouped in H0. by destruct (group _ _ _).
Qed.

Lemma handler_summary_consistent_witness :
  handler world_ok (no_args (JsString.lit "a.wav"))
  = Returns
      (Completed 2 1 2
         (JsString.lit "/srv/audio/2026-01-01T00-00-00-000Z_transcript.json")
         (JsString.lit "/srv/audio/2026-01-01T00-00-00-000Z_transcript.txt")
         (JsString.lit "/srv/audio/2026-01-01T00-00-00-000Z_sentences.json")
         (JsString.lit "/srv/audio"))
  ∧ ∃ output sents,
      replicate_run world_ok
        (build_input (publicUrl world_ok) (no_args (JsString.lit "a.wav")))
      = Returns (Some output)
      ∧ Eff.value (aggregate (segments output)) = Some sents
      ∧ 2 = length (default [] (segments output))
      ∧ 1 = length sents
      ∧ 1 ≤ 2 ∧ (1 = 0 ↔ 2 = 0)
      ∧ 2%float = summary_duration (default [] (segments output))
      ∧ JsString.lit "/srv/audio/2026-01-01T00-00-00-000Z_transcript.json"
        = transcriptPath world_ok (no_args (JsString.lit "a.wav"))
      ∧ JsString.lit "/srv/audio/2026-01-01T00-00-00-000Z_transcript.txt"
        = textPath world_ok (no_args (JsString.lit "a.wav"))
      ∧ JsString.lit "/srv/audio/2026-01-01T00-00-00-000Z_sentences.json"
        = sentencesPath world_ok (no_args (JsString.lit "a.wav"))
      ∧ JsString.lit "/srv/audio" = audioDir world_ok.
Proof.
  assert (H : handler world_ok (no_args (JsString.lit "a.wav"))
              = Returns
                  (Completed 2 1 2
                     (JsString.lit "/srv/audio/2026-01-01T00-00-00-000Z_transcript.json")
                     (JsString.lit "/srv/audio/2026-01-01T00-00-00-000Z_transcript.txt")
                     (JsString.lit "/srv/audio/2026-01-01T00-00-00-000Z_sentences.json")
                     (JsString.lit "/srv/audio"))).
  { vm_compute. reflexivity. }
  split; [exact H|].
  exact (handler_summary_consistent _ _ _ _ _ _ _ _ _ H).
Defined.

(** * Examples *)

(** The examples of section 8 of the spec. *)

Example example_1 :
  Eff.value (aggregate (Some [seg 0 1 "Hello."]))
  = Some [mkSentence (JsString.lit "Hello.") 0 1 1].
Proof. vm_compute. reflexivity. Qed.

Example example_2 :
  Eff.value (aggregate (Some [seg 0 1 "Hello"; seg 1 2 " world."]))
  = Some [mkSentence (JsString.lit "Hello world.") 0 2 2].
Proof. vm_compute. reflexivity. Qed.

Example example_3 :
  Eff.value (aggregate (Some [seg 0 1 "Hi"; seg 1 2 "there"]))
  = Some [mkSentence (JsString.lit "Hithere") 0 2 2].
Proof. vm_compute. reflexivity. Qed.

Example example_4 : Eff.value (aggregate (Some [])) = Some [].
Proof. reflexivity. Qed.

Example example_5 :
  Eff.value (aggregate (Some [seg 0 1 "One."; seg 1 2 "Two"; seg 2 3 " three"]))
  = Some [ mkSentence (JsString.lit "One.") 0 1 1;
           mkSentence (JsString.lit "Two three") 1 3 2 ].
Proof. vm_compute. reflexivity. Qed.

(** The indices read on a two-segment input with a cut after the first. *)
Example reads_two_segments :
  Eff.reads (aggregate (Some [seg 0 1 "One."; seg 1 2 "Two"]))
  = Some [0; 0; 1; 1].
Proof. vm_compute. reflexivity. Qed.

(** Without the guard on the length, the read of [segments[0].start] on
    the empty sequence is the failure that the guard avoids. *)
Example read_empty_fails : Eff.run (Eff.read ([] : list Segment) 0) = None.
Proof. reflexivity. Qed.

(** A sentence with the empty text after a closed sentence. *)
Example empty_sentence :
  Eff.value (aggregate (Some [seg 0 1 "Hi."; seg 1 2 " "; seg 2 3 ""]))
  = Some [ mkSentence (JsString.lit "Hi.") 0 1 1; mkSentence [] 1 3 2 ].
Proof. vm_compute. reflexivity. Qed.

(** A complete invocation, and one whose bucket listing fails. *)
Example handler_ok :
  handler world_ok (no_args (JsString.lit "a.wav"))
  = Returns
      (Completed 2 1 2
         (JsString.lit "/srv/audio/2026-01-01T00-00-00-000Z_transcript.json")
         (JsString.lit "/srv/audio/2026-01-01T00-00-00-000Z_transcript.txt")
         (JsString.lit "/srv/audio/2026-01-01T00-00-00-000Z_sentences.json")
         (JsString.lit "/srv/audio")).
Proof. vm_compute. reflexivity. Qed.

Example handler_listing_fails :
  handler world_listing_fails (no_args (JsString.lit "a.wav"))
  = Returns
      (Text (JsString.lit "Error transcribing audio: Failed to list buckets: denied")).
Proof. vm_compute. reflexivity. Qed.
